(** * Disk scheduling simulator: the scheduling engine of [disk.py]

    A shallow embedding of the class [DiskScheduler] (policies FCFS, SSTF,
    SCAN, C-SCAN and the shared metrics computation) and of the methods of
    [DiskSchedulerGUI] that feed it ([_validate_inputs], [_run_algorithm],
    [run_simulation], [generate_random]).

    Conventions of the embedding:
    - Python [int] is [Z]; [len] is [Z.of_nat (length _)].
    - Python exceptions are values of [exn]; a computation that may raise
      has type [result A].
    - A Python [float] is the rational number it denotes.  The true
      division [a / b] of two ints is the double nearest to the quotient
      (ties to even); it raises [ZeroDivisionError] when [b] is zero and
      [OverflowError] when that double would not be finite.
    - The object state of a [DiskScheduler] is a record.  A method takes
      the record and gives back the record as the call leaves it, together
      with what the call returns or raises: what was assigned before an
      exception stays assigned. *)

From Stdlib Require Import String.
From Stdlib Require Import ZArith QArith Qabs List Bool Lia.
From Stdlib Require Import Permutation Sorted.
From Equations Require Import Equations.
From Equations.Prop Require Import Logic.
Import ListNotations.

Open Scope Z_scope.

(* ------------------------------------------------------------------------- *)
(** ** Exceptions *)

Inductive exn : Type :=
| ValueError (msg : string)
| ZeroDivisionError
| IndexError
| OverflowError.

Definition result (A : Type) : Type := (exn + A)%type.

Definition ret {A : Type} (a : A) : result A := inr a.

Definition raise {A : Type} (e : exn) : result A := inl e.

Definition bind {A B : Type} (c : result A) (k : A -> result B) : result B :=
  match c with
  | inl e => inl e
  | inr a => k a
  end.

Notation "x <- c ;; k" := (bind c (fun x => k))
  (at level 61, c at next level, right associativity).

Notation "' p <- c ;; k" := (bind c (fun p => k))
  (at level 61, p pattern, c at next level, right associativity).

(* ------------------------------------------------------------------------- *)
(** ** The Python built-ins the engine uses *)

Module Py.

Definition len {A : Type} (l : list A) : Z := Z.of_nat (length l).

(** [l[i]]: a negative index counts from the end; out of range raises. *)
Definition getitem (l : list Z) (i : Z) : result Z :=
  let j := if i <? 0 then i + len l else i in
  if (0 <=? j) && (j <? len l)
  then ret (nth (Z.to_nat j) l 0)
  else raise IndexError.

(** [range(a, b)]. *)
Definition range (a b : Z) : list Z :=
  map (fun k => a + Z.of_nat k) (seq 0 (Z.to_nat (b - a))).

(** [sum(f(i) for i in idx)], the generator evaluated left to right. *)
Fixpoint sum_gen (f : Z -> result Z) (idx : list Z) (acc : Z) : result Z :=
  match idx with
  | [] => ret acc
  | i :: rest => v <- f i ;; sum_gen f rest (acc + v)
  end.

(** [2 ** k] as a rational, for any integer [k]. *)
Definition pow2 (k : Z) : Q :=
  if 0 <=? k then inject_Z (2 ^ k) else 1 # Z.to_pos (2 ^ (- k)).

(** [num / den] rounded to the nearest integer, a tie going to the even
    one ([0 <= num], [0 < den]). *)
Definition round_half_even (num den : Z) : Z :=
  let f := num / den in
  let r := num mod den in
  if 2 * r <? den then f
  else if den <? 2 * r then f + 1
  else if Z.even f then f else f + 1.

(** The exponent of the last place of the double nearest to [n / d]
    ([0 < n], [0 < d]): 52 below the exponent of the quotient, and never
    below that of the subnormal numbers. *)
Definition quantum (n d : Z) : Z :=
  let e0 := Z.log2 n - Z.log2 d in
  let reaches :=
    if 0 <=? e0 then d * 2 ^ e0 <=? n else d <=? n * 2 ^ (- e0) in
  let e := if reaches then e0 else e0 - 1 in
  Z.max (e - 52) (-1074).

(** The quotient [n / d] counted in units of [2 ** q], rounded. *)
Definition mantissa (n d q : Z) : Z :=
  if 0 <=? q then round_half_even n (d * 2 ^ q)
  else round_half_even (n * 2 ^ (- q)) d.

(** The number the double nearest to [a / b] denotes ([b] not zero), with
    an exponent range that has no upper end. *)
Definition nearest_double (a b : Z) : Q :=
  let n := Z.abs a in
  let d := Z.abs b in
  if n =? 0 then 0%Q
  else
    let q := quantum n d in
    (inject_Z (Z.sgn a * Z.sgn b * mantissa n d q) * pow2 q)%Q.

(** [a / b] on ints: correctly rounded; a result of magnitude [2 ** 1024]
    or more is no double. *)
Definition truediv (a b : Z) : result Q :=
  if b =? 0 then raise ZeroDivisionError
  else
    let v := nearest_double a b in
    if Qle_bool (pow2 1024) (Qabs v) then raise OverflowError else ret v.

(** [sorted(l)] on ints: a stable insertion sort stands for the built-in
    sort; [sorted_Sorted] and [sorted_Permutation] below show that it
    returns the ascending rearrangement of [l], which is unique. *)
Fixpoint insert (x : Z) (l : list Z) : list Z :=
  match l with
  | [] => [x]
  | y :: t => if x <? y then x :: y :: t else y :: insert x t
  end.

Fixpoint sorted (l : list Z) : list Z :=
  match l with
  | [] => []
  | x :: t => insert x (sorted t)
  end.

(** [min(l, key=key)]: the scan keeps the current best and replaces it
    only by an element whose key is strictly smaller, so the first of
    several minimal elements wins. *)
Fixpoint min_scan (key : Z -> Z) (best : Z) (l : list Z) : Z :=
  match l with
  | [] => best
  | x :: t => min_scan key (if key x <? key best then x else best) t
  end.

Definition min_key (key : Z -> Z) (l : list Z) : result Z :=
  match l with
  | [] => raise (ValueError "min() arg is an empty sequence")
  | x :: t => ret (min_scan key x t)
  end.

(** [l.remove(x)]: drops the first element equal to [x]. *)
Fixpoint remove (x : Z) (l : list Z) : result (list Z) :=
  match l with
  | [] => raise (ValueError "list.remove(x): x not in list")
  | y :: t => if y =? x then ret t else t' <- remove x t ;; ret (y :: t')
  end.

End Py.

(* ------------------------------------------------------------------------- *)
(** ** class DiskScheduler *)

Record DiskScheduler : Type := mkDiskScheduler {
  requests : list Z;
  head : Z;
  disk_size : Z;
  seek_sequence : list Z;
  total_seek : Z
}.

(** [(total_seek, avg_seek, throughput)], the tuple every policy returns. *)
Record Metrics : Type := mkMetrics {
  m_total_seek : Z;
  avg_seek : Q;
  throughput : Q
}.

(** The object after a method call, and what the call returned or
    raised. *)
Definition Call : Type := (DiskScheduler * result Metrics)%type.

Definition set_seek_sequence (self : DiskScheduler) (s : list Z) : DiskScheduler :=
  mkDiskScheduler (requests self) (head self) (disk_size self) s (total_seek self).

Definition set_total_seek (self : DiskScheduler) (t : Z) : DiskScheduler :=
  mkDiskScheduler (requests self) (head self) (disk_size self) (seek_sequence self) t.

(** [DiskScheduler.__init__] *)
Definition init (requests : list Z) (head disk_size : Z) : DiskScheduler :=
  mkDiskScheduler requests head disk_size [] 0.

(** [DiskScheduler.calculate_metrics]: [self.total_seek] is assigned
    before the two divisions are made. *)
Definition calculate_metrics (self : DiskScheduler) : Call :=
  match Py.sum_gen
          (fun i =>
             a <- Py.getitem (seek_sequence self) i ;;
             b <- Py.getitem (seek_sequence self) (i - 1) ;;
             ret (Z.abs (a - b)))
          (Py.range 1 (Py.len (seek_sequence self))) 0
  with
  | inl e => (self, raise e)
  | inr total =>
      let self := set_total_seek self total in
      (self,
       avg <- match requests self with
              | [] => ret 0%Q
              | _ :: _ => Py.truediv (total_seek self) (Py.len (requests self))
              end ;;
       thr <- (if total_seek self >? 0
               then Py.truediv (Py.len (requests self)) (total_seek self + 1)
               else ret 0%Q) ;;
       ret (mkMetrics (total_seek self) avg thr))
  end.

(** [DiskScheduler.fcfs] *)
Definition fcfs (self : DiskScheduler) : Call :=
  let self := set_seek_sequence self ([head self] ++ requests self) in
  calculate_metrics self.

(** One iteration of the [while remaining:] loop of [sstf]: the sequence
    as the iteration leaves it, and the list left or the exception.  The
    key of [min] reads [self.seek_sequence[-1]]; the sequence does not
    change while [min] runs, so the position is read once per iteration.
    The element chosen is appended before it is removed. *)
Definition sstf_body (sequence remaining : list Z) : list Z * result (list Z) :=
  match (cur <- Py.getitem sequence (-1) ;;
         Py.min_key (fun x => Z.abs (x - cur)) remaining) with
  | inl e => (sequence, raise e)
  | inr closest => (sequence ++ [closest], Py.remove closest remaining)
  end.

(** The loop itself; it ends because [remove] shortens [remaining]. *)
#[local] Obligation Tactic := idtac.

Equations? sstf_loop (sequence remaining : list Z) : list Z * result unit
  by wf (length remaining) lt :=
sstf_loop sequence [] := (sequence, ret tt);
sstf_loop sequence (r :: rs) with inspect (sstf_body sequence (r :: rs)) := {
  | exist _ (sequence', inl e) _ := (sequence', raise e)
  | exist _ (sequence', inr remaining') Hstep :=
      sstf_loop sequence' remaining' }.
Proof.
  clear sstf_loop.
  assert (Hlen : forall (l l' : list Z) x,
             Py.remove x l = inr l' -> (length l' < length l)%nat).
  { induction l as [| y t IH]; simpl; intros l' x H; [discriminate |].
    destruct (y =? x).
    - injection H as <-. apply Nat.lt_succ_diag_r.
    - destruct (Py.remove x t) as [e | t'] eqn:Ht; simpl in H; [discriminate |].
      injection H as <-. simpl. apply -> Nat.succ_lt_mono. exact (IH _ _ Ht). }
  unfold sstf_body in Hstep.
  destruct (cur <- Py.getitem sequence (-1) ;;
            Py.min_key (fun x => Z.abs (x - cur)) (r :: rs))
    as [e | closest]; [discriminate |].
  injection Hstep as _ Hrm. exact (Hlen (r :: rs) remaining' closest Hrm).
Defined.

(** [DiskScheduler.sstf] *)
Definition sstf (self : DiskScheduler) : Call :=
  let self := set_seek_sequence self [head self] in
  let remaining := requests self in
  let '(sequence, r) := sstf_loop (seek_sequence self) remaining in
  let self := set_seek_sequence self sequence in
  match r with
  | inl e => (self, raise e)
  | inr _ => calculate_metrics self
  end.

(** The conditional boundary visit
    [[b] if part and part[i] != b else []]. *)
Definition boundary (part : list Z) (i b : Z) : result (list Z) :=
  match part with
  | [] => ret []
  | _ :: _ => e <- Py.getitem part i ;; ret (if negb (e =? b) then [b] else [])
  end.

(** [DiskScheduler.scan] *)
Definition scan (self : DiskScheduler) (direction : string) : Call :=
  let self := set_seek_sequence self [head self] in
  let sorted_requests := Py.sorted (requests self) in
  if String.eqb direction "right" then
    let left := filter (fun x => x <? head self) sorted_requests in
    let right := filter (fun x => x >=? head self) sorted_requests in
    match boundary right (-1) (disk_size self - 1) with
    | inl e => (self, raise e)
    | inr edge =>
        calculate_metrics
          (set_seek_sequence self (seek_sequence self ++ right ++ edge ++ rev left))
    end
  else
    let left := filter (fun x => x <=? head self) sorted_requests in
    let right := filter (fun x => x >? head self) sorted_requests in
    match boundary left 0 0 with
    | inl e => (self, raise e)
    | inr edge =>
        calculate_metrics
          (set_seek_sequence self (seek_sequence self ++ rev left ++ edge ++ right))
    end.

(** [DiskScheduler.cscan] *)
Definition cscan (self : DiskScheduler) : Call :=
  let self := set_seek_sequence self [head self] in
  let sorted_requests := Py.sorted (requests self) in
  let right := filter (fun x => x >=? head self) sorted_requests in
  let left := filter (fun x => x <? head self) sorted_requests in
  match boundary right (-1) (disk_size self - 1) with
  | inl e => (self, raise e)
  | inr edge =>
      calculate_metrics
        (set_seek_sequence self (seek_sequence self ++ right ++ edge ++ [0] ++ left))
  end.

(* ------------------------------------------------------------------------- *)
(** ** class DiskSchedulerGUI: validation and dispatch *)

(** The text of an entry after [.strip()]: blank, or some text. *)
Inductive entry (A : Type) : Type :=
| Blank
| Text (content : A).

Arguments Blank {A}.
Arguments Text {A} content.

(** The three entries as [_validate_inputs] reads them.  A text is given
    by what the built-ins make of it: for disk size and head, the integer
    [int] returns, or [None] when [int] raises [ValueError]; for the
    requests, the tokens of [split()], of which a text that is not blank
    has at least one, each with what [int] makes of it. *)
Record Entries : Type := mkEntries {
  disk_size_entry : entry (option Z);
  head_entry : entry (option Z);
  requests_entry : entry (option Z * list (option Z))
}.

(** The list comprehension [[int(x) for x in ...]] inside the [try]. *)
Fixpoint ints (tokens : list (option Z)) : result (list Z) :=
  match tokens with
  | [] => ret []
  | None :: _ => raise (ValueError "invalid literal for int()")
  | Some z :: rest => zs <- ints rest ;; ret (z :: zs)
  end.

(** [DiskSchedulerGUI._validate_inputs] *)
Definition _validate_inputs (e : Entries) : result (Z * Z * list Z) :=
  match disk_size_entry e, head_entry e, requests_entry e with
  | Text disk_size, Text head, Text (first, others) =>
      match disk_size, head, ints (first :: others) with
      | Some disk_size, Some head, inr requests =>
          match requests with
          | [] => raise (ValueError "Request queue cannot be empty.")
          | _ :: _ =>
              if disk_size <=? 0
              then raise (ValueError "Disk size must be positive.")
              else if negb ((0 <=? head) && (head <? disk_size))
                      || existsb (fun r => (r <? 0) || (r >=? disk_size)) requests
              then raise (ValueError
                     "Head and requests must be within disk size (0 to disk_size-1).")
              else ret (disk_size, head, requests)
          end
      | _, _, _ => raise (ValueError "Inputs must be integers.")
      end
  | _, _, _ => raise (ValueError "All input fields must be filled.")
  end.

(** The entries that hold the decimal text of three values: an empty
    request list is written as a blank entry. *)
Definition entries_of (disk_size head : Z) (requests : list Z) : Entries :=
  mkEntries (Text (Some disk_size)) (Text (Some head))
    (match requests with
     | [] => Blank
     | r :: rest => Text (Some r, map Some rest)
     end).

(** A [dict] with string keys, in insertion order. *)
Definition dict (V : Type) : Type := list (string * V).

Fixpoint dict_set {V : Type} (d : dict V) (k : string) (v : V) : dict V :=
  match d with
  | [] => [(k, v)]
  | (k', v') :: t =>
      if String.eqb k' k then (k, v) :: t else (k', v') :: dict_set t k v
  end.

Definition Results : Type := dict (list Z * Metrics).

(** The conditional expression that picks the policy method in
    [_run_algorithm]; [direction] is [self.direction_var.get()]. *)
Definition run_policy (a direction : string) (scheduler : DiskScheduler) : Call :=
  if String.eqb a "FCFS" then fcfs scheduler
  else if String.eqb a "SSTF" then sstf scheduler
  else if String.eqb a "SCAN" then scan scheduler direction
  else cscan scheduler.

(** The [for a in [...]] loop of the compare-all branch. *)
Fixpoint compare_all (names : list string) (direction : string)
    (requests : list Z) (head disk_size : Z) (results : Results)
  : result Results :=
  match names with
  | [] => ret results
  | a :: rest =>
      let scheduler := init requests head disk_size in
      let '(scheduler, returned) := run_policy a direction scheduler in
      metrics <- returned ;;
      let results := dict_set results a (seek_sequence scheduler, metrics) in
      compare_all rest direction requests head disk_size results
  end.

(** [DiskSchedulerGUI._run_algorithm] *)
Definition _run_algorithm (algo : string) (requests : list Z)
    (head disk_size : Z) (direction : string) : result Results :=
  let results : Results := [] in
  let scheduler := init requests head disk_size in
  if String.eqb algo "Compare All" then
    compare_all ["FCFS"; "SSTF"; "SCAN"; "C-SCAN"]%string direction
      requests head disk_size results
  else
    let '(scheduler, returned) := run_policy algo direction scheduler in
    metrics <- returned ;;
    ret (dict_set results algo (seek_sequence scheduler, metrics)).

(** The [try] body of [DiskSchedulerGUI.run_simulation], up to the results
    that are handed to the display code. *)
Definition run_simulation (e : Entries) (algo direction : string)
  : result Results :=
  '(disk_size, head, requests) <- _validate_inputs e ;;
  _run_algorithm algo requests head disk_size direction.
(* ------------------------------------------------------------------------- *)
(** ** What the specification says, in its own words *)

Module Spec.

(** A valid input: non-empty requests, a positive disk size, head and
    every request inside [0, disk_size). *)
Definition valid (disk_size head : Z) (requests : list Z) : Prop :=
  requests <> [] /\ 0 < disk_size /\ 0 <= head < disk_size /\
  Forall (fun r => 0 <= r < disk_size) requests.

(** Sum of [|sequence[i] - sequence[i-1]|] over the consecutive pairs. *)
Fixpoint seek_distance (sequence : list Z) : Z :=
  match sequence with
  | a :: (b :: _) as t => Z.abs (b - a) + seek_distance t
  | _ => 0
  end.

(** The ascending and the descending arrangement of a list; the ascending
    one is the only list that is ordered by [<=] and has the same elements
    ([sorted_StronglySorted], [sorted_Permutation], [ascending_unique]). *)
Definition ascending (l : list Z) : list Z := Py.sorted l.

Definition descending (l : list Z) : list Z := rev (Py.sorted l).

Definition maximum (l : list Z) : Z := fold_right Z.max (hd 0 l) l.

Definition minimum (l : list Z) : Z := fold_right Z.min (hd 0 l) l.

Definition nonempty {A : Type} (l : list A) : bool :=
  match l with [] => false | _ :: _ => true end.

(** SCAN, direction right. *)
Definition scan_right (head disk_size : Z) (requests : list Z) : list Z :=
  let right := filter (fun r => head <=? r) requests in
  let left := filter (fun r => r <? head) requests in
  [head] ++ ascending right
    ++ (if nonempty right && negb (maximum right =? disk_size - 1)
        then [disk_size - 1] else [])
    ++ descending left.

(** SCAN, direction left. *)
Definition scan_left (head : Z) (requests : list Z) : list Z :=
  let left := filter (fun r => r <=? head) requests in
  let right := filter (fun r => head <? r) requests in
  [head] ++ descending left
    ++ (if nonempty left && negb (minimum left =? 0) then [0] else [])
    ++ ascending right.

(** C-SCAN. *)
Definition cscan (head disk_size : Z) (requests : list Z) : list Z :=
  let right := filter (fun r => head <=? r) requests in
  let left := filter (fun r => r <? head) requests in
  [head] ++ ascending right
    ++ (if nonempty right && negb (maximum right =? disk_size - 1)
        then [disk_size - 1] else [])
    ++ [0] ++ ascending left.

(** The greedy order of SSTF from position [cur]: the next element [x] is
    at minimum distance from [cur] among the remaining ones, strictly
    closer than everything before it in the remaining list (so the first
    minimal element is taken on a tie); it is removed and the selection
    goes on from [x]. *)
Inductive greedy : Z -> list Z -> list Z -> Prop :=
| greedy_nil : forall cur, greedy cur [] []
| greedy_cons : forall cur before x after out,
    Forall (fun y => Z.abs (x - cur) < Z.abs (y - cur)) before ->
    Forall (fun y => Z.abs (x - cur) <= Z.abs (y - cur)) after ->
    greedy x (before ++ after) out ->
    greedy cur (before ++ x :: after) (x :: out).

End Spec.

(* ------------------------------------------------------------------------- *)
(** ** Observing a run *)

(** What a policy call leaves in [self.seek_sequence], whether it returned
    or raised. *)
Definition sequence_after (c : Call) : list Z := seek_sequence (fst c).

(** What a policy call returned or raised. *)
Definition metrics_after (c : Call) : result Metrics := snd c.

(** The closed form of the tuple computed from a request list and a seek
    sequence, with the two divisions of [calculate_metrics]. *)
Definition metrics_of (requests sequence : list Z) : result Metrics :=
  let total := Spec.seek_distance sequence in
  avg <- match requests with
         | [] => ret 0%Q
         | _ :: _ => Py.truediv total (Py.len requests)
         end ;;
  thr <- (if total >? 0
          then Py.truediv (Py.len requests) (total + 1)
          else ret 0%Q) ;;
  ret (mkMetrics total avg thr).

(** A policy that ends with sequence [sequence] in the object leaves
    [calculate_metrics] with the total stored and the tuple computed, or
    the exception of a division. *)
Definition finish (self : DiskScheduler) (sequence : list Z) : Call :=
  (set_total_seek (set_seek_sequence self sequence)
     (Spec.seek_distance sequence),
   metrics_of (requests self) sequence).

(** An entry of the result map whose tuple is the one computed from its
    own sequence. *)
Definition entry_consistent (requests : list Z) (entry : string * (list Z * Metrics))
  : Prop :=
  metrics_of requests (fst (snd entry)) = ret (snd (snd entry)).

(** The keys of the result map for a choice of the algorithm box. *)
Definition policy_names (algo : string) : list string :=
  if String.eqb algo "Compare All"
  then ["FCFS"; "SSTF"; "SCAN"; "C-SCAN"]%string
  else [algo].

(** The condition under which [_validate_inputs] rejects three integer
    values. *)
Definition invalid (disk_size head : Z) (requests : list Z) : Prop :=
  requests = [] \/ disk_size <= 0 \/ ~ (0 <= head < disk_size) \/
  Exists (fun r => ~ (0 <= r < disk_size)) requests.

(** Sizes for which no quotient of [calculate_metrics] leaves the range of
    the doubles: a disk of at most [2 ** 1000] cylinders and a request list
    no longer than [sys.maxsize]. *)
Definition double_safe (disk_size : Z) (requests : list Z) : Prop :=
  disk_size <= 2 ^ 1000 /\ Py.len requests <= 2 ^ 63 - 1.

(** A call that returns a value or raises [OverflowError], and nothing
    else. *)
Definition returns_or_overflows {A : Type} (r : result A) : Prop :=
  (exists a, r = ret a) \/ r = raise OverflowError.

(** A policy run on an empty request list that returns with sequence
    [sequence], average 0 and throughput 0. *)
Definition returns_empty (c : Call) (sequence : list Z) : Prop :=
  exists self m,
    c = (self, ret m) /\ seek_sequence self = sequence /\
    (avg_seek m == 0)%Q /\ (throughput m == 0)%Q.

(** The inputs of the worked example of the specification. *)
Definition scenario : list Z := [98; 183; 37; 122; 14; 124; 65; 67].

(* ------------------------------------------------------------------------- *)
(** ** DiskSchedulerGUI.generate_random *)

(** [random.randint(a, b)]: the [k]-th call of a run returns what the
    generator yields there, [tape k a b]; an empty range raises. *)
Definition randint (tape : nat -> Z -> Z -> Z) (k : nat) (a b : Z) : result Z :=
  if a >? b then raise (ValueError "empty range for randrange()")
  else ret (tape k a b).

(** A list comprehension whose element expression may raise. *)
Fixpoint comprehension {A B : Type} (f : A -> result B) (l : list A)
  : result (list B) :=
  match l with
  | [] => ret []
  | x :: t => y <- f x ;; ys <- comprehension f t ;; ret (y :: ys)
  end.

(** The [try] body of [DiskSchedulerGUI.generate_random], up to the three
    values that are then written into the entries with [str].
    [disk_size_input] is the disk size entry: [None] when it is blank,
    otherwise the integer [int] reads from it.  The head is drawn first,
    then the number of requests, then the requests. *)
Definition generate_random (tape : nat -> Z -> Z -> Z) (disk_size_input : option Z)
  : result (Z * Z * list Z) :=
  let disk_size := match disk_size_input with Some z => z | None => 200 end in
  if disk_size <=? 0 then raise (ValueError "Disk size must be positive.")
  else
    head <- randint tape 0 0 (disk_size - 1) ;;
    count <- randint tape 1 5 15 ;;
    drawn <- comprehension
               (fun i => randint tape (2 + i) 0 (disk_size - 1))
               (seq 0 (Z.to_nat count)) ;;
    let requests := Py.sorted drawn in
    ret (disk_size, head, requests).

(* ------------------------------------------------------------------------- *)
(** ** Shapes of sequences *)

(** Each element is at least as near to the position before it as every
    element that comes later. *)
Fixpoint nearest_first (cur : Z) (out : list Z) : Prop :=
  match out with
  | [] => True
  | x :: rest =>
      Forall (fun y => Z.abs (x - cur) <= Z.abs (y - cur)) rest /\
      nearest_first x rest
  end.

(** The sequence a policy method produces from the three constructor
    arguments: FCFS, SSTF, SCAN to the right, SCAN to the left, C-SCAN. *)
Inductive policy_sequence (requests : list Z) (head disk_size : Z)
  : list Z -> Prop :=
| sequence_fcfs : policy_sequence requests head disk_size (head :: requests)
| sequence_sstf : forall out,
    Spec.greedy head requests out ->
    policy_sequence requests head disk_size (head :: out)
| sequence_scan_right :
    policy_sequence requests head disk_size
      (Spec.scan_right head disk_size requests)
| sequence_scan_left :
    policy_sequence requests head disk_size (Spec.scan_left head requests)
| sequence_cscan :
    policy_sequence requests head disk_size
      (Spec.cscan head disk_size requests).

(* ------------------------------------------------------------------------- *)
(** ** Facts about the built-ins *)

Section Builtins.

Lemma bind_ret {A B : Type} (a : A) (k : A -> result B) :
  bind (ret a) k = k a.
Proof. reflexivity. Qed.

Lemma len_app {A : Type} (l1 l2 : list A) :
  Py.len (l1 ++ l2) = Py.len l1 + Py.len l2.
Proof. unfold Py.len. rewrite length_app. lia. Qed.

Lemma len_cons {A : Type} (a : A) (l : list A) : Py.len (a :: l) = 1 + Py.len l.
Proof. unfold Py.len. simpl length. lia. Qed.

Lemma len_nonneg {A : Type} (l : list A) : 0 <= Py.len l.
Proof. unfold Py.len. lia. Qed.

(** Indexing inside the bounds reads the element at that place. *)
Lemma getitem_nth (l : list Z) (i : Z) :
  0 <= i < Py.len l -> Py.getitem l i = ret (nth (Z.to_nat i) l 0).
Proof.
  intros Hi. unfold Py.getitem.
  destruct (i <? 0) eqn:E; [apply Z.ltb_lt in E; lia |].
  destruct (0 <=? i) eqn:E1; [| apply Z.leb_gt in E1; lia].
  destruct (i <? Py.len l) eqn:E2; [| apply Z.ltb_ge in E2; lia].
  reflexivity.
Qed.

Lemma getitem_middle (pre post : list Z) (a : Z) :
  Py.getitem (pre ++ a :: post) (Py.len pre) = ret a.
Proof.
  pose proof (len_nonneg pre) as Hp. pose proof (len_nonneg post) as Hq.
  rewrite getitem_nth by (rewrite len_app, len_cons; lia).
  unfold Py.len. rewrite Nat2Z.id, nth_middle. reflexivity.
Qed.

(** [l[-1]] is the last element of a non-empty list. *)
Lemma getitem_last (l : list Z) (a : Z) : Py.getitem (l ++ [a]) (-1) = ret a.
Proof.
  pose proof (len_nonneg l) as Hp.
  unfold Py.getitem. change (-1 <? 0) with true. cbv iota.
  rewrite len_app. change (Py.len [a]) with 1.
  destruct (0 <=? -1 + (Py.len l + 1)) eqn:E1; [| apply Z.leb_gt in E1; lia].
  destruct (-1 + (Py.len l + 1) <? Py.len l + 1) eqn:E2;
    [| apply Z.ltb_ge in E2; lia].
  replace (-1 + (Py.len l + 1)) with (Py.len l) by lia.
  unfold Py.len. rewrite Nat2Z.id, nth_middle. reflexivity.
Qed.

Lemma getitem_first (a : Z) (l : list Z) : Py.getitem (a :: l) 0 = ret a.
Proof. exact (getitem_middle [] l a). Qed.

Lemma range_cons (a : Z) (n : nat) :
  Py.range a (a + Z.of_nat (S n)) = a :: Py.range (a + 1) (a + 1 + Z.of_nat n).
Proof.
  unfold Py.range.
  replace (a + Z.of_nat (S n) - a) with (Z.of_nat (S n)) by lia.
  replace (a + 1 + Z.of_nat n - (a + 1)) with (Z.of_nat n) by lia.
  rewrite !Nat2Z.id. simpl seq. simpl map. f_equal; [lia |].
  rewrite <- seq_shift, map_map. apply map_ext. intros k. lia.
Qed.

Lemma range_empty (a : Z) : Py.range a a = [].
Proof. unfold Py.range. rewrite Z.sub_diag. reflexivity. Qed.

(** The generator of [calculate_metrics] adds up the distances between
    neighbours, whatever lies before the first of them. *)
Lemma sum_gen_distance (post pre : list Z) (a acc : Z) :
  Py.sum_gen
    (fun i =>
       x <- Py.getitem (pre ++ a :: post) i ;;
       y <- Py.getitem (pre ++ a :: post) (i - 1) ;;
       ret (Z.abs (x - y)))
    (Py.range (Py.len pre + 1) (Py.len pre + 1 + Py.len post)) acc
  = ret (acc + Spec.seek_distance (a :: post)).
Proof.
  revert pre a acc. induction post as [| b post IH]; intros pre a acc.
  - change (Py.len (@nil Z)) with 0. rewrite Z.add_0_r, range_empty.
    simpl. f_equal. lia.
  - change (Py.len (b :: post)) with (Z.of_nat (S (length post))).
    rewrite range_cons. fold (Py.len post). cbn [Py.sum_gen].
    assert (Hb : Py.getitem (pre ++ a :: b :: post) (Py.len pre + 1) = ret b).
    { replace (Py.len pre + 1) with (Py.len (pre ++ [a]))
        by (rewrite len_app; reflexivity).
      replace (pre ++ a :: b :: post) with ((pre ++ [a]) ++ b :: post)
        by (rewrite <- app_assoc; reflexivity).
      apply getitem_middle. }
    assert (Ha : Py.getitem (pre ++ a :: b :: post) (Py.len pre + 1 - 1) = ret a).
    { replace (Py.len pre + 1 - 1) with (Py.len pre) by lia.
      apply getitem_middle. }
    rewrite Hb, bind_ret, Ha, !bind_ret.
    specialize (IH (pre ++ [a]) b (acc + Z.abs (b - a))).
    rewrite <- app_assoc, len_app in IH. cbn [app] in IH.
    change (Py.len [a]) with 1 in IH.
    rewrite IH. f_equal. cbn [Spec.seek_distance]. lia.
Qed.

Lemma sum_gen_sequence (sequence : list Z) :
  Py.sum_gen
    (fun i =>
       x <- Py.getitem sequence i ;;
       y <- Py.getitem sequence (i - 1) ;;
       ret (Z.abs (x - y)))
    (Py.range 1 (Py.len sequence)) 0
  = ret (Spec.seek_distance sequence).
Proof.
  destruct sequence as [| a post].
  - reflexivity.
  - rewrite len_cons. exact (sum_gen_distance post [] a 0).
Qed.

End Builtins.

(* ------------------------------------------------------------------------- *)
(** ** True division: when it returns, and the sign of what it returns *)

Section Division.

Lemma round_half_even_bounds (num den : Z) :
  0 <= num -> 0 < den ->
  0 <= Py.round_half_even num den <= num / den + 1.
Proof.
  intros Hn Hd. unfold Py.round_half_even.
  pose proof (Z.div_pos num den Hn Hd).
  destruct (2 * (num mod den) <? den); [lia |].
  destruct (den <? 2 * (num mod den)); [lia |].
  destruct (Z.even (num / den)); lia.
Qed.

Lemma pow2_pos (k : Z) : (0 < Py.pow2 k)%Q.
Proof.
  unfold Py.pow2. destruct (0 <=? k) eqn:E.
  - apply Z.leb_le in E. unfold Qlt. simpl.
    pose proof (Z.pow_pos_nonneg 2 k). lia.
  - reflexivity.
Qed.

Lemma mantissa_nonneg (n d q : Z) : 0 < n -> 0 < d -> 0 <= Py.mantissa n d q.
Proof.
  intros Hn Hd. unfold Py.mantissa. destruct (0 <=? q) eqn:E.
  - apply Z.leb_le in E. apply round_half_even_bounds; [lia |].
    pose proof (Z.pow_pos_nonneg 2 q). nia.
  - apply Z.leb_gt in E. apply round_half_even_bounds; [| lia].
    pose proof (Z.pow_pos_nonneg 2 (- q)). nia.
Qed.

(** The double nearest to a quotient of non-negative integers is not
    negative. *)
Lemma nearest_double_nonneg (a b : Z) :
  0 <= a -> 0 < b -> (0 <= Py.nearest_double a b)%Q.
Proof.
  intros Ha Hb. unfold Py.nearest_double.
  destruct (Z.abs a =? 0) eqn:E; [apply Qle_refl |].
  apply Z.eqb_neq in E.
  apply Qmult_le_0_compat; [| apply Qlt_le_weak, pow2_pos].
  rewrite (Z.sgn_pos a), (Z.sgn_pos b) by lia.
  pose proof (mantissa_nonneg (Z.abs a) (Z.abs b)
                (Py.quantum (Z.abs a) (Z.abs b)) ltac:(lia) ltac:(lia)).
  unfold Qle, inject_Z. cbn [Qnum Qden]. lia.
Qed.

Lemma nearest_double_zero (b : Z) : Py.nearest_double 0 b = 0%Q.
Proof. reflexivity. Qed.

Lemma quantum_le (n d : Z) :
  Py.quantum n d <= Z.max (Z.log2 n - Z.log2 d - 52) (-1074).
Proof.
  unfold Py.quantum.
  destruct (if 0 <=? Z.log2 n - Z.log2 d
            then d * 2 ^ (Z.log2 n - Z.log2 d) <=? n
            else d <=? n * 2 ^ (- (Z.log2 n - Z.log2 d))); lia.
Qed.

(** A quotient below [2 ** 1023] has a last place of exponent 971 at
    most. *)
Lemma quantum_bound (n d : Z) :
  0 < n -> 0 < d -> n < 2 ^ 1023 * d -> Py.quantum n d <= 971.
Proof.
  intros Hn Hd Hlt. pose proof (quantum_le n d) as Hq.
  assert (Z.log2 n < 1024 + Z.log2 d); [| lia].
  apply Z.log2_lt_pow2; [exact Hn |].
  destruct (Z.log2_spec d Hd) as [_ Hup].
  pose proof (Z.log2_nonneg d).
  replace (1024 + Z.log2 d) with (1023 + Z.succ (Z.log2 d)) by lia.
  rewrite Z.pow_add_r by lia.
  assert (0 < 2 ^ 1023) by (apply Z.pow_pos_nonneg; lia).
  nia.
Qed.

(** The rounded quotient stays below [2 ** 1024]. *)
Lemma mantissa_bound (n d : Z) :
  0 < n -> 0 < d -> n < 2 ^ 1023 * d ->
  let q := Py.quantum n d in
  (0 <= q -> Py.mantissa n d q * 2 ^ q < 2 ^ 1024) /\
  (q < 0 -> Py.mantissa n d q < 2 ^ 1024 * 2 ^ (- q)).
Proof.
  intros Hn Hd Hlt q. pose proof (quantum_bound n d Hn Hd Hlt) as Hq.
  fold q in Hq. unfold Py.mantissa.
  assert (HB : 0 < 2 ^ 1023) by (apply Z.pow_pos_nonneg; lia).
  assert (HB2 : 2 ^ 1024 = 2 * 2 ^ 1023).
  { change 1024 with (Z.succ 1023). rewrite Z.pow_succ_r by lia. reflexivity. }
  rewrite HB2. set (B := 2 ^ 1023) in *. split; intros Hs.
  - destruct (0 <=? q) eqn:E; [| apply Z.leb_gt in E; lia].
    assert (Hp : 0 < 2 ^ q) by (apply Z.pow_pos_nonneg; lia).
    assert (Hp971 : 2 ^ q <= B).
    { subst B. apply Z.pow_le_mono_r; lia. }
    set (p := 2 ^ q) in *.
    pose proof (round_half_even_bounds n (d * p)) as Hr.
    specialize (Hr ltac:(lia) ltac:(nia)).
    assert (Hf : n / (d * p) * p < B).
    { pose proof (Z.mul_div_le n (d * p) ltac:(nia)).
      assert (0 <= n / (d * p)) by (apply Z.div_pos; nia).
      nia. }
    nia.
  - destruct (0 <=? q) eqn:E; [apply Z.leb_le in E; lia |].
    assert (Hp : 0 < 2 ^ (- q)) by (apply Z.pow_pos_nonneg; lia).
    set (p := 2 ^ (- q)) in *.
    pose proof (round_half_even_bounds (n * p) d) as Hr.
    specialize (Hr ltac:(nia) Hd).
    assert (Hf : (n * p) / d < B * p).
    { apply Z.div_lt_upper_bound; [exact Hd |]. nia. }
    nia.
Qed.

(** A quotient of non-negative integers below [2 ** 1023] is divided
    without an exception. *)
Lemma truediv_returns (a b : Z) :
  0 <= a -> 0 < b -> a < 2 ^ 1023 * b ->
  Py.truediv a b = ret (Py.nearest_double a b).
Proof.
  intros Ha Hb Hlt. unfold Py.truediv.
  destruct (b =? 0) eqn:Eb; [apply Z.eqb_eq in Eb; lia |].
  destruct (Qle_bool (Py.pow2 1024) (Qabs (Py.nearest_double a b))) eqn:E;
    [| reflexivity].
  exfalso. apply Qle_bool_iff in E.
  pose proof (nearest_double_nonneg a b Ha Hb) as Hnn.
  rewrite (Qabs_pos _ Hnn) in E. revert E. apply Qlt_not_le.
  unfold Py.nearest_double in *.
  destruct (Z.abs a =? 0) eqn:Ez; [apply pow2_pos |].
  apply Z.eqb_neq in Ez.
  rewrite (Z.sgn_pos a), (Z.sgn_pos b), (Z.abs_eq a), (Z.abs_eq b) by lia.
  rewrite (Z.abs_eq a), (Z.abs_eq b) in Hnn by lia.
  destruct (mantissa_bound a b ltac:(lia) Hb Hlt) as [Hpos Hneg].
  cbv zeta in Hpos, Hneg.
  set (q := Py.quantum a b) in *. set (m := Py.mantissa a b q) in *.
  assert (H1024 : Py.pow2 1024 = inject_Z (2 ^ 1024)) by reflexivity.
  rewrite H1024. unfold Py.pow2. destruct (0 <=? q) eqn:Eq.
  - apply Z.leb_le in Eq. specialize (Hpos Eq).
    unfold Qlt, Qmult, inject_Z. cbn [Qnum Qden]. rewrite !Z.mul_1_l.
    change (Z.pos (1 * 1)) with 1. lia.
  - apply Z.leb_gt in Eq. specialize (Hneg Eq).
    assert (Hp : 0 < 2 ^ (- q)) by (apply Z.pow_pos_nonneg; lia).
    unfold Qlt, Qmult, inject_Z. cbn [Qnum Qden].
    rewrite Pos.mul_1_l, Z2Pos.id by exact Hp. lia.
Qed.

(** With a divisor that is not zero, the division returns the nearest
    double or raises [OverflowError]. *)
Lemma truediv_outcome (a b : Z) :
  b <> 0 ->
  Py.truediv a b = ret (Py.nearest_double a b) \/
  Py.truediv a b = raise OverflowError.
Proof.
  intros Hb. unfold Py.truediv. apply Z.eqb_neq in Hb. rewrite Hb.
  destruct (Qle_bool _ _); [right | left]; reflexivity.
Qed.

End Division.

(* ------------------------------------------------------------------------- *)
(** ** [sorted]: the ascending rearrangement *)

Section Sorting.

Lemma insert_Permutation (x : Z) (l : list Z) :
  Permutation (Py.insert x l) (x :: l).
Proof.
  induction l as [| y t IH]; simpl.
  - apply Permutation_refl.
  - destruct (x <? y).
    + apply Permutation_refl.
    + apply perm_trans with (y :: x :: t).
      * apply perm_skip. exact IH.
      * apply perm_swap.
Qed.

Lemma sorted_Permutation (l : list Z) : Permutation (Py.sorted l) l.
Proof.
  induction l as [| x t IH]; simpl.
  - apply perm_nil.
  - apply perm_trans with (x :: Py.sorted t).
    + apply insert_Permutation.
    + apply perm_skip. exact IH.
Qed.

Lemma insert_StronglySorted (x : Z) (l : list Z) :
  StronglySorted Z.le l -> StronglySorted Z.le (Py.insert x l).
Proof.
  induction 1 as [| y t Ht IH Hy]; simpl.
  - constructor; constructor.
  - destruct (x <? y) eqn:E.
    + apply Z.ltb_lt in E. constructor.
      * constructor; assumption.
      * constructor; [lia |].
        eapply Forall_impl; [| exact Hy]. intros z Hz. simpl in Hz. lia.
    + apply Z.ltb_ge in E. constructor; [exact IH |].
      apply (Permutation_Forall (Permutation_sym (insert_Permutation x t))).
      constructor; assumption.
Qed.

Lemma sorted_StronglySorted (l : list Z) : StronglySorted Z.le (Py.sorted l).
Proof.
  induction l as [| x t IH]; simpl.
  - constructor.
  - apply insert_StronglySorted. exact IH.
Qed.

Lemma sorted_Sorted (l : list Z) : Sorted Z.le (Py.sorted l).
Proof. apply StronglySorted_Sorted, sorted_StronglySorted. Qed.

(** Two ascending lists with the same elements are the same list. *)
Lemma ascending_unique (l1 l2 : list Z) :
  StronglySorted Z.le l1 -> StronglySorted Z.le l2 -> Permutation l1 l2 ->
  l1 = l2.
Proof.
  intros H1. revert l2.
  induction H1 as [| a t1 Ht1 IH Ha]; intros l2 H2 HP.
  - apply Permutation_nil in HP. symmetry. exact HP.
  - destruct H2 as [| b t2 Ht2 Hb].
    + apply Permutation_sym, Permutation_nil in HP. discriminate.
    + assert (a = b) as <-.
      { assert (Hin1 : In b (a :: t1)).
        { apply (Permutation_in b (Permutation_sym HP)). left. reflexivity. }
        assert (Hin2 : In a (b :: t2)).
        { apply (Permutation_in a HP). left. reflexivity. }
        rewrite Forall_forall in Ha, Hb.
        destruct Hin1 as [-> | Hin1]; [reflexivity |].
        destruct Hin2 as [-> | Hin2]; [reflexivity |].
        specialize (Ha _ Hin1). specialize (Hb _ Hin2). lia. }
      f_equal. apply IH; [exact Ht2 |].
      apply Permutation_cons_inv with a. exact HP.
Qed.

Lemma filter_Permutation (p : Z -> bool) (l1 l2 : list Z) :
  Permutation l1 l2 -> Permutation (filter p l1) (filter p l2).
Proof.
  induction 1 as [| x l l' _ IH | x y l | l l' l'' _ IH1 _ IH2]; simpl.
  - apply perm_nil.
  - destruct (p x); [apply perm_skip |]; exact IH.
  - destruct (p x), (p y); try apply Permutation_refl. apply perm_swap.
  - apply perm_trans with (filter p l'); assumption.
Qed.

Lemma filter_StronglySorted (p : Z -> bool) (l : list Z) :
  StronglySorted Z.le l -> StronglySorted Z.le (filter p l).
Proof.
  induction 1 as [| a t Ht IH Ha]; simpl.
  - constructor.
  - destruct (p a); [| exact IH]. constructor; [exact IH |].
    rewrite Forall_forall in Ha |- *. intros x Hx.
    apply filter_In in Hx. apply Ha. tauto.
Qed.

(** Selecting from the sorted list is sorting the selection. *)
Lemma filter_sorted (p : Z -> bool) (l : list Z) :
  filter p (Py.sorted l) = Py.sorted (filter p l).
Proof.
  apply ascending_unique.
  - apply filter_StronglySorted, sorted_StronglySorted.
  - apply sorted_StronglySorted.
  - apply perm_trans with (filter p l).
    + apply filter_Permutation, sorted_Permutation.
    + apply Permutation_sym, sorted_Permutation.
Qed.

Lemma fold_max_spec (a : Z) (l : list Z) :
  (In (fold_right Z.max a l) l \/ fold_right Z.max a l = a) /\
  Forall (fun x => x <= fold_right Z.max a l) l.
Proof.
  induction l as [| b l [IH1 IH2]]; simpl.
  - split; [right; reflexivity | constructor].
  - split.
    + destruct (Z.max_spec b (fold_right Z.max a l)) as [[_ ->] | [_ ->]].
      * destruct IH1; [left; right; assumption | right; assumption].
      * left. left. reflexivity.
    + constructor; [lia |]. eapply Forall_impl; [| exact IH2].
      intros z Hz. simpl in Hz. lia.
Qed.

Lemma fold_min_spec (a : Z) (l : list Z) :
  (In (fold_right Z.min a l) l \/ fold_right Z.min a l = a) /\
  Forall (fun x => fold_right Z.min a l <= x) l.
Proof.
  induction l as [| b l [IH1 IH2]]; simpl.
  - split; [right; reflexivity | constructor].
  - split.
    + destruct (Z.min_spec b (fold_right Z.min a l)) as [[_ ->] | [_ ->]].
      * left. left. reflexivity.
      * destruct IH1; [left; right; assumption | right; assumption].
    + constructor; [lia |]. eapply Forall_impl; [| exact IH2].
      intros z Hz. simpl in Hz. lia.
Qed.

(** The maximum is an element and bounds every element. *)
Lemma maximum_spec (l : list Z) :
  l <> [] -> In (Spec.maximum l) l /\ Forall (fun x => x <= Spec.maximum l) l.
Proof.
  unfold Spec.maximum. destruct l as [| a t]; [congruence | intros _].
  cbn [hd]. destruct (fold_max_spec a (a :: t)) as [[H | H] H'].
  - split; assumption.
  - split; [rewrite H; left; reflexivity | assumption].
Qed.

Lemma minimum_spec (l : list Z) :
  l <> [] -> In (Spec.minimum l) l /\ Forall (fun x => Spec.minimum l <= x) l.
Proof.
  unfold Spec.minimum. destruct l as [| a t]; [congruence | intros _].
  cbn [hd]. destruct (fold_min_spec a (a :: t)) as [[H | H] H'].
  - split; assumption.
  - split; [rewrite H; left; reflexivity | assumption].
Qed.

(** In an ascending list the last element is the maximum and the first
    is the minimum. *)
Lemma StronglySorted_last (l : list Z) (a : Z) :
  StronglySorted Z.le (l ++ [a]) -> Forall (fun x => x <= a) (l ++ [a]).
Proof.
  induction l as [| b l IH]; simpl; intros H.
  - constructor; [lia | constructor].
  - inversion H as [| ? ? Ht Hb]; subst. constructor.
    + rewrite Forall_forall in Hb. apply Hb, in_or_app. right. left. reflexivity.
    + apply IH. exact Ht.
Qed.

Lemma sorted_last_maximum (l s : list Z) (a : Z) :
  Py.sorted l = s ++ [a] -> Spec.maximum l = a.
Proof.
  intros Hs.
  assert (Hne : l <> []).
  { intros ->. simpl in Hs. destruct s; discriminate. }
  destruct (maximum_spec l Hne) as [Hin Hall].
  pose proof (sorted_Permutation l) as HP. rewrite Hs in HP.
  pose proof (sorted_StronglySorted l) as HS. rewrite Hs in HS.
  apply StronglySorted_last in HS. rewrite Forall_forall in HS, Hall.
  assert (Ha : In a l).
  { apply (Permutation_in a HP), in_or_app. right. left. reflexivity. }
  specialize (Hall _ Ha).
  specialize (HS _ (Permutation_in _ (Permutation_sym HP) Hin)). lia.
Qed.

Lemma sorted_first_minimum (l s : list Z) (a : Z) :
  Py.sorted l = a :: s -> Spec.minimum l = a.
Proof.
  intros Hs.
  assert (Hne : l <> []).
  { intros ->. discriminate. }
  destruct (minimum_spec l Hne) as [Hin Hall].
  pose proof (sorted_Permutation l) as HP. rewrite Hs in HP.
  pose proof (sorted_StronglySorted l) as HS. rewrite Hs in HS.
  inversion HS as [| ? ? _ Hb]; subst. rewrite Forall_forall in Hb, Hall.
  assert (Ha : In a l).
  { apply (Permutation_in a HP). left. reflexivity. }
  specialize (Hall _ Ha).
  destruct (Permutation_in _ (Permutation_sym HP) Hin) as [<- | Hin'];
    [reflexivity |].
  specialize (Hb _ Hin'). lia.
Qed.

End Sorting.

(* ------------------------------------------------------------------------- *)
(** ** The metrics computation *)

Section MetricsFacts.

Lemma seek_distance_nonneg (sequence : list Z) : 0 <= Spec.seek_distance sequence.
Proof.
  induction sequence as [| a [| b t] IH]; simpl; try lia.
  simpl in IH. lia.
Qed.

(** [calculate_metrics] never fails on an index: it stores the total and
    goes on to the two divisions. *)
Lemma calculate_metrics_returns (self : DiskScheduler) :
  calculate_metrics self =
  (set_total_seek self (Spec.seek_distance (seek_sequence self)),
   metrics_of (requests self) (seek_sequence self)).
Proof. unfold calculate_metrics. rewrite sum_gen_sequence. reflexivity. Qed.

Lemma calculate_metrics_eq (self : DiskScheduler) (sequence : list Z) :
  calculate_metrics (set_seek_sequence self sequence) = finish self sequence.
Proof. rewrite calculate_metrics_returns. reflexivity. Qed.

Lemma sequence_after_finish (self : DiskScheduler) (sequence : list Z) :
  sequence_after (finish self sequence) = sequence.
Proof. reflexivity. Qed.

Lemma metrics_after_finish (self : DiskScheduler) (sequence : list Z) :
  metrics_after (finish self sequence) = metrics_of (requests self) sequence.
Proof. reflexivity. Qed.

Lemma fcfs_eq (self : DiskScheduler) :
  fcfs self = finish self (head self :: requests self).
Proof. unfold fcfs. rewrite calculate_metrics_eq. reflexivity. Qed.

Lemma len_pos (r : Z) (rs : list Z) : 0 < Py.len (r :: rs).
Proof. rewrite len_cons. pose proof (len_nonneg rs). lia. Qed.

(** The tuple, when the divisions return. *)
Lemma metrics_of_ret (requests sequence : list Z) (m : Metrics) :
  metrics_of requests sequence = ret m ->
  m_total_seek m = Spec.seek_distance sequence /\
  avg_seek m =
    match requests with
    | [] => 0%Q
    | _ :: _ => Py.nearest_double (Spec.seek_distance sequence) (Py.len requests)
    end /\
  throughput m =
    (if Spec.seek_distance sequence >? 0
     then Py.nearest_double (Py.len requests) (Spec.seek_distance sequence + 1)
     else 0%Q).
Proof.
  unfold metrics_of. pose proof (seek_distance_nonneg sequence) as Ht.
  set (total := Spec.seek_distance sequence) in *.
  assert (Havg :
    match requests with
    | [] => ret 0%Q
    | _ :: _ => Py.truediv total (Py.len requests)
    end = ret (match requests with
               | [] => 0%Q
               | _ :: _ => Py.nearest_double total (Py.len requests)
               end) \/
    match requests with
    | [] => ret 0%Q
    | _ :: _ => Py.truediv total (Py.len requests)
    end = raise OverflowError).
  { destruct requests as [| r rs]; [left; reflexivity |].
    apply truediv_outcome. pose proof (len_pos r rs). lia. }
  destruct Havg as [-> | ->]; [| discriminate].
  rewrite bind_ret.
  destruct (total >? 0) eqn:E.
  - destruct (truediv_outcome (Py.len requests) (total + 1) ltac:(lia))
      as [-> | ->]; [| discriminate].
    rewrite bind_ret. intros H. injection H as <-. auto.
  - rewrite bind_ret. intros H. injection H as <-. auto.
Qed.

(** The divisions raise nothing but [OverflowError]. *)
Lemma metrics_of_outcome (requests sequence : list Z) :
  returns_or_overflows (metrics_of requests sequence).
Proof.
  unfold returns_or_overflows, metrics_of.
  pose proof (seek_distance_nonneg sequence) as Ht.
  set (total := Spec.seek_distance sequence) in *.
  assert (Havg : returns_or_overflows
    match requests with
    | [] => ret 0%Q
    | _ :: _ => Py.truediv total (Py.len requests)
    end).
  { destruct requests as [| r rs]; [left; eexists; reflexivity |].
    destruct (truediv_outcome total (Py.len (r :: rs))) as [-> | ->].
    - pose proof (len_pos r rs). lia.
    - left. eexists. reflexivity.
    - right. reflexivity. }
  destruct Havg as [[avg ->] | ->]; [| right; reflexivity].
  rewrite bind_ret.
  destruct (total >? 0) eqn:E.
  - destruct (truediv_outcome (Py.len requests) (total + 1) ltac:(lia))
      as [-> | ->]; [left; eexists | right]; reflexivity.
  - left. eexists. reflexivity.
Qed.

(** The divisions return when the total is below [2 ** 1023] times the
    number of requests and the number of requests is below [2 ** 1023]. *)
Lemma metrics_of_returns (requests sequence : list Z) :
  Spec.seek_distance sequence < 2 ^ 1023 * Py.len requests \/ requests = [] ->
  Py.len requests < 2 ^ 1023 ->
  exists m, metrics_of requests sequence = ret m.
Proof.
  intros Havg Hthr. unfold metrics_of.
  pose proof (seek_distance_nonneg sequence) as Ht.
  pose proof (len_nonneg requests) as Hn.
  set (total := Spec.seek_distance sequence) in *.
  assert (HB : 0 < 2 ^ 1023) by (apply Z.pow_pos_nonneg; lia).
  assert (H1 : exists avg,
    match requests with
    | [] => ret 0%Q
    | _ :: _ => Py.truediv total (Py.len requests)
    end = ret avg).
  { destruct requests as [| r rs]; [eexists; reflexivity |].
    destruct Havg as [Havg | Havg]; [| discriminate].
    eexists. apply truediv_returns; [lia | apply len_pos | exact Havg]. }
  destruct H1 as [avg ->]. rewrite bind_ret.
  destruct (total >? 0) eqn:E.
  - rewrite truediv_returns by (try lia; nia). eexists. reflexivity.
  - eexists. reflexivity.
Qed.

End MetricsFacts.

(* ------------------------------------------------------------------------- *)
(** ** SCAN and C-SCAN *)

Section ScanFacts.

Lemma sorted_nil_inv (l : list Z) : Py.sorted l = [] -> l = [].
Proof.
  intros H. pose proof (sorted_Permutation l) as HP. rewrite H in HP.
  apply Permutation_nil. exact HP.
Qed.

(** The upper boundary visit, decided on the last element of the sorted
    part, is decided on the maximum of the part. *)
Lemma boundary_last (l : list Z) (b : Z) :
  boundary (Py.sorted l) (-1) b =
  ret (if Spec.nonempty l && negb (Spec.maximum l =? b) then [b] else []).
Proof.
  destruct (Py.sorted l) as [| z t] eqn:Hs.
  - apply sorted_nil_inv in Hs. subst l. reflexivity.
  - destruct (exists_last (l := z :: t)) as (s & a & Hsa); [discriminate |].
    rewrite Hsa in Hs |- *.
    assert (Hne : Spec.nonempty l = true).
    { destruct l; [destruct s; discriminate | reflexivity]. }
    rewrite (sorted_last_maximum _ _ _ Hs), Hne.
    unfold boundary. destruct (s ++ [a]) eqn:E; [destruct s; discriminate |].
    rewrite <- E, getitem_last. reflexivity.
Qed.

(** The lower boundary visit, decided on the first element of the sorted
    part, is decided on the minimum of the part. *)
Lemma boundary_first (l : list Z) :
  boundary (Py.sorted l) 0 0 =
  ret (if Spec.nonempty l && negb (Spec.minimum l =? 0) then [0] else []).
Proof.
  destruct (Py.sorted l) as [| z t] eqn:Hs.
  - apply sorted_nil_inv in Hs. subst l. reflexivity.
  - assert (Hne : Spec.nonempty l = true).
    { destruct l; [discriminate | reflexivity]. }
    rewrite (sorted_first_minimum _ _ _ Hs), Hne.
    unfold boundary. rewrite getitem_first. reflexivity.
Qed.

Lemma filter_ge (h : Z) (l : list Z) :
  filter (fun x => x >=? h) l = filter (fun r => h <=? r) l.
Proof. apply filter_ext. intros x. apply Z.geb_leb. Qed.

Lemma filter_gt (h : Z) (l : list Z) :
  filter (fun x => x >? h) l = filter (fun r => h <? r) l.
Proof. apply filter_ext. intros x. apply Z.gtb_ltb. Qed.

Lemma scan_right_eq (self : DiskScheduler) :
  scan self "right" =
  finish self (Spec.scan_right (head self) (disk_size self) (requests self)).
Proof.
  unfold scan. cbn [String.eqb Ascii.eqb Bool.eqb andb].
  cbn [set_seek_sequence head requests disk_size seek_sequence].
  rewrite filter_ge, !filter_sorted, boundary_last. unfold ret at 1.
  rewrite calculate_metrics_eq. reflexivity.
Qed.

Lemma scan_other_eq (self : DiskScheduler) (direction : string) :
  direction <> "right"%string ->
  scan self direction = finish self (Spec.scan_left (head self) (requests self)).
Proof.
  intros Hd. unfold scan. apply String.eqb_neq in Hd. rewrite Hd.
  cbn [set_seek_sequence head requests disk_size seek_sequence].
  rewrite filter_gt, !filter_sorted, boundary_first. unfold ret at 1.
  rewrite calculate_metrics_eq. reflexivity.
Qed.

Lemma cscan_eq (self : DiskScheduler) :
  cscan self =
  finish self (Spec.cscan (head self) (disk_size self) (requests self)).
Proof.
  unfold cscan.
  cbn [set_seek_sequence head requests disk_size seek_sequence].
  rewrite filter_ge, !filter_sorted, boundary_last. unfold ret at 1.
  rewrite calculate_metrics_eq. reflexivity.
Qed.

End ScanFacts.

(* ------------------------------------------------------------------------- *)
(** ** SSTF *)

Section SstfFacts.

(** The loop, unfolded once. *)
Lemma sstf_loop_step (sequence : list Z) (r : Z) (rs : list Z) :
  sstf_loop sequence (r :: rs) =
  match sstf_body sequence (r :: rs) with
  | (sequence', inl e) => (sequence', raise e)
  | (sequence', inr remaining') => sstf_loop sequence' remaining'
  end.
Proof.
  simp sstf_loop.
  destruct (inspect (sstf_body sequence (r :: rs))) as [[s' [e | l']] H];
    cbn; rewrite H; reflexivity.
Qed.

(** [min] with a key returns the first element of minimum key: every
    element before it has a strictly larger key, every element after it a
    key at least as large. *)
Lemma min_scan_split (key : Z -> Z) (l b1 b2 : list Z) (best : Z) :
  Forall (fun y => key best < key y) b1 ->
  Forall (fun y => key best <= key y) b2 ->
  exists before after,
    b1 ++ best :: b2 ++ l = before ++ Py.min_scan key best l :: after /\
    Forall (fun y => key (Py.min_scan key best l) < key y) before /\
    Forall (fun y => key (Py.min_scan key best l) <= key y) after.
Proof.
  revert b1 b2 best. induction l as [| x t IH]; intros b1 b2 best H1 H2.
  - exists b1, b2. rewrite app_nil_r. simpl. auto.
  - simpl. destruct (key x <? key best) eqn:E.
    + apply Z.ltb_lt in E.
      destruct (IH (b1 ++ best :: b2) [] x) as (before & after & Heq & Hb & Ha).
      * apply Forall_app. split; [| constructor].
        -- eapply Forall_impl; [| exact H1]. intros z Hz. simpl in Hz. lia.
        -- exact E.
        -- eapply Forall_impl; [| exact H2]. intros z Hz. simpl in Hz. lia.
      * constructor.
      * exists before, after. split; [| auto].
        rewrite <- Heq, <- app_assoc. reflexivity.
    + apply Z.ltb_ge in E.
      destruct (IH b1 (b2 ++ [x]) best) as (before & after & Heq & Hb & Ha).
      * exact H1.
      * apply Forall_app. split; [exact H2 | constructor; [exact E | constructor]].
      * exists before, after. split; [| auto].
        rewrite <- Heq, <- app_assoc. reflexivity.
Qed.

Lemma remove_split (x : Z) (before after : list Z) :
  Forall (fun y => y <> x) before ->
  Py.remove x (before ++ x :: after) = ret (before ++ after).
Proof.
  induction 1 as [| y t Hy _ IH]; simpl.
  - rewrite Z.eqb_refl. reflexivity.
  - apply Z.eqb_neq in Hy. rewrite Hy, IH. reflexivity.
Qed.

(** One iteration takes the first nearest element out of a non-empty
    list. *)
Lemma sstf_body_split (sequence : list Z) (cur r : Z) (rs : list Z) :
  exists before x after,
    r :: rs = before ++ x :: after /\
    Forall (fun y => Z.abs (x - cur) < Z.abs (y - cur)) before /\
    Forall (fun y => Z.abs (x - cur) <= Z.abs (y - cur)) after /\
    sstf_body (sequence ++ [cur]) (r :: rs) =
    ((sequence ++ [cur]) ++ [x], ret (before ++ after)).
Proof.
  destruct (min_scan_split (fun x => Z.abs (x - cur)) rs [] [] r)
    as (before & after & Heq & Hb & Ha); try constructor.
  simpl in Heq.
  exists before, (Py.min_scan (fun x => Z.abs (x - cur)) r rs), after.
  repeat split; try assumption.
  unfold sstf_body. rewrite getitem_last, bind_ret.
  unfold Py.min_key, ret at 1. rewrite Heq, remove_split; [reflexivity |].
  eapply Forall_impl; [| exact Hb]. intros z Hz ->. simpl in Hz. lia.
Qed.

(** The loop returns, and appends the greedy order of what remained. *)
Lemma sstf_loop_greedy (n : nat) :
  forall (remaining sequence : list Z) (cur : Z),
    length remaining = n ->
    exists out,
      sstf_loop (sequence ++ [cur]) remaining =
      (sequence ++ [cur] ++ out, ret tt) /\
      Spec.greedy cur remaining out.
Proof.
  induction n as [| n IH]; intros remaining sequence cur Hlen.
  - destruct remaining; [| discriminate]. exists []. split.
    + simp sstf_loop. rewrite app_nil_r. reflexivity.
    + constructor.
  - destruct remaining as [| r rs]; [discriminate |].
    destruct (sstf_body_split sequence cur r rs)
      as (before & x & after & Heq & Hb & Ha & Hbody).
    destruct (IH (before ++ after) (sequence ++ [cur]) x) as (out & Hloop & Hg).
    { apply (f_equal (@length Z)) in Heq. rewrite length_app in Heq |- *.
      simpl in Heq, Hlen. lia. }
    exists (x :: out). split.
    + rewrite sstf_loop_step, Hbody. unfold ret at 1.
      rewrite Hloop, <- app_assoc. reflexivity.
    + rewrite Heq. constructor; assumption.
Qed.

Lemma greedy_Permutation (cur : Z) (remaining out : list Z) :
  Spec.greedy cur remaining out -> Permutation out remaining.
Proof.
  induction 1 as [| cur before x after out _ _ _ IH].
  - apply perm_nil.
  - apply Permutation_cons_app. exact IH.
Qed.

(** The greedy order is determined by the start and the remaining list. *)
Lemma greedy_deterministic (cur : Z) (remaining out1 out2 : list Z) :
  Spec.greedy cur remaining out1 -> Spec.greedy cur remaining out2 ->
  out1 = out2.
Proof.
  intros H1. revert out2.
  induction H1 as [| cur before x after out Hb Ha _ IH]; intros out2 H2.
  - remember (@nil Z) as rem eqn:E in H2.
    destruct H2 as [| ? b' ? ? ? _ _ _]; [reflexivity |].
    destruct b'; discriminate.
  - remember (before ++ x :: after) as rem eqn:E in H2.
    destruct H2 as [| cur before' x' after' out' Hb' Ha' Hg'].
    + destruct before; discriminate.
    + assert (Hsame : before' = before /\ x' = x /\ after' = after).
      { clear - E Hb Ha Hb' Ha'. revert before' E Hb'.
        induction before as [| y t IHt]; intros before' E Hb'.
        - destruct before' as [| y' t'].
          + injection E as -> ->. auto.
          + injection E as <- E. subst after.
            inversion Hb' as [| ? ? Hlt _]; subst.
            rewrite Forall_forall in Ha.
            assert (Hin : In x' (t' ++ x' :: after')).
            { apply in_or_app. right. left. reflexivity. }
            specialize (Ha _ Hin). lia.
        - destruct before' as [| y' t'].
          + injection E as -> E. subst after'.
            inversion Hb as [| ? ? Hlt _]; subst.
            rewrite Forall_forall in Ha'.
            assert (Hin : In x (t ++ x :: after)).
            { apply in_or_app. right. left. reflexivity. }
            specialize (Ha' _ Hin). lia.
          + injection E as -> E.
            inversion Hb; subst. inversion Hb'; subst.
            destruct (IHt ltac:(assumption) t' E ltac:(assumption))
              as (-> & -> & ->).
            auto. }
      destruct Hsame as (-> & -> & ->). f_equal. apply IH. exact Hg'.
Qed.

Lemma sstf_eq (self : DiskScheduler) :
  exists out,
    sstf self = finish self (head self :: out) /\
    Spec.greedy (head self) (requests self) out.
Proof.
  unfold sstf. cbn [set_seek_sequence head requests disk_size seek_sequence].
  destruct (sstf_loop_greedy _ (requests self) [] (head self) eq_refl)
    as (out & Hloop & Hg).
  exists out. split; [| exact Hg].
  cbn [app] in Hloop. rewrite Hloop. unfold ret at 1.
  rewrite calculate_metrics_eq. reflexivity.
Qed.

End SstfFacts.

(* ------------------------------------------------------------------------- *)
(** ** Dispatch and validation *)

Section RunFacts.

Lemma scan_returns (self : DiskScheduler) (direction : string) :
  exists sequence, scan self direction = finish self sequence.
Proof.
  destruct (string_dec direction "right") as [-> | Hd].
  - eexists. apply scan_right_eq.
  - eexists. apply scan_other_eq. exact Hd.
Qed.

(** What a policy method does depends on [requests], [head] and
    [disk_size] only: it leaves one of the five shapes in the object and
    ends in the two divisions. *)
Lemma run_policy_shape (a direction : string) (scheduler : DiskScheduler) :
  exists sequence,
    run_policy a direction scheduler = finish scheduler sequence /\
    policy_sequence (requests scheduler) (head scheduler) (disk_size scheduler)
      sequence.
Proof.
  unfold run_policy.
  destruct (String.eqb a "FCFS").
  { eexists. split; [apply fcfs_eq | apply sequence_fcfs]. }
  destruct (String.eqb a "SSTF").
  { destruct (sstf_eq scheduler) as (out & H & Hg).
    eexists. split; [exact H | apply sequence_sstf; exact Hg]. }
  destruct (String.eqb a "SCAN").
  { destruct (string_dec direction "right") as [-> | Hd].
    - eexists. split; [apply scan_right_eq | apply sequence_scan_right].
    - eexists. split; [apply (scan_other_eq _ _ Hd) | apply sequence_scan_left]. }
  eexists. split; [apply cscan_eq | apply sequence_cscan].
Qed.

(** The result map of a run: one consistent entry per policy asked for,
    or the [OverflowError] of a division on one of the shapes. *)
Lemma run_algorithm_cases (algo : string) (rs : list Z)
    (start size : Z) (direction : string) :
  (exists results,
     _run_algorithm algo rs start size direction = ret results /\
     map fst results = policy_names algo /\
     Forall (fun entry =>
               entry_consistent rs entry /\
               policy_sequence rs start size (fst (snd entry)))
            results) \/
  (_run_algorithm algo rs start size direction = raise OverflowError /\
   exists sequence,
     policy_sequence rs start size sequence /\
     metrics_of rs sequence = raise OverflowError).
Proof.
  unfold _run_algorithm, policy_names.
  destruct (String.eqb algo "Compare All").
  - cbn [compare_all].
    destruct (run_policy_shape "FCFS" direction (init rs start size))
      as (s1 & -> & H1).
    unfold finish. cbn [init requests].
    destruct (metrics_of_outcome rs s1) as [[m1 E1] | E1]; rewrite E1;
      [| right; split; [reflexivity | eauto]].
    rewrite bind_ret.
    destruct (run_policy_shape "SSTF" direction (init rs start size))
      as (s2 & -> & H2).
    unfold finish. cbn [init requests].
    destruct (metrics_of_outcome rs s2) as [[m2 E2] | E2]; rewrite E2;
      [| right; split; [reflexivity | eauto]].
    rewrite bind_ret.
    destruct (run_policy_shape "SCAN" direction (init rs start size))
      as (s3 & -> & H3).
    unfold finish. cbn [init requests].
    destruct (metrics_of_outcome rs s3) as [[m3 E3] | E3]; rewrite E3;
      [| right; split; [reflexivity | eauto]].
    rewrite bind_ret.
    destruct (run_policy_shape "C-SCAN" direction (init rs start size))
      as (s4 & -> & H4).
    unfold finish. cbn [init requests].
    destruct (metrics_of_outcome rs s4) as [[m4 E4] | E4]; rewrite E4;
      [| right; split; [reflexivity | eauto]].
    rewrite bind_ret.
    left. eexists. split; [reflexivity |]. split; [reflexivity |].
    unfold entry_consistent. cbn [seek_sequence set_total_seek set_seek_sequence].
    repeat constructor; cbn [fst snd]; assumption.
  - destruct (run_policy_shape algo direction (init rs start size))
      as (s & -> & H).
    unfold finish. cbn [init requests].
    destruct (metrics_of_outcome rs s) as [[m E] | E]; rewrite E;
      [| right; split; [reflexivity | eauto]].
    rewrite bind_ret.
    left. eexists. split; [reflexivity |]. split; [reflexivity |].
    unfold entry_consistent. cbn [seek_sequence set_total_seek set_seek_sequence].
    repeat constructor; cbn [fst snd]; assumption.
Qed.

Lemma ints_Some (l : list Z) : ints (map Some l) = ret l.
Proof.
  induction l as [| z t IH]; simpl; [reflexivity |].
  rewrite IH. reflexivity.
Qed.

(** On entries that hold integers, [_validate_inputs] comes down to its
    last three checks; a blank request entry is refused before them. *)
Lemma validate_entries_of (disk_size head r : Z) (rs : list Z) :
  _validate_inputs (entries_of disk_size head (r :: rs)) =
  if disk_size <=? 0
  then raise (ValueError "Disk size must be positive.")
  else if negb ((0 <=? head) && (head <? disk_size))
          || existsb (fun x => (x <? 0) || (x >=? disk_size)) (r :: rs)
  then raise (ValueError
         "Head and requests must be within disk size (0 to disk_size-1).")
  else ret (disk_size, head, r :: rs).
Proof.
  unfold _validate_inputs, entries_of.
  cbn [disk_size_entry head_entry requests_entry].
  change (Some r :: map Some rs) with (map Some (r :: rs)).
  rewrite ints_Some. reflexivity.
Qed.

Lemma existsb_outside (disk_size : Z) (requests : list Z) :
  existsb (fun r => (r <? 0) || (r >=? disk_size)) requests = true <->
  Exists (fun r => ~ (0 <= r < disk_size)) requests.
Proof.
  rewrite existsb_exists, Exists_exists.
  split; intros (r & Hin & Hr); exists r; (split; [exact Hin |]).
  - apply orb_true_iff in Hr. rewrite Z.geb_leb in Hr.
    destruct Hr as [Hr | Hr]; [apply Z.ltb_lt in Hr | apply Z.leb_le in Hr]; lia.
  - apply orb_true_iff. rewrite Z.geb_leb.
    destruct (Z.lt_ge_cases r 0) as [H | H].
    + left. apply Z.ltb_lt. exact H.
    + right. apply Z.leb_le. lia.
Qed.

Lemma head_outside (disk_size head : Z) :
  negb ((0 <=? head) && (head <? disk_size)) = true <->
  ~ (0 <= head < disk_size).
Proof.
  rewrite negb_true_iff, andb_false_iff, Z.leb_gt, Z.ltb_ge. lia.
Qed.

Lemma validate_rejects (disk_size head : Z) (requests : list Z) :
  invalid disk_size head requests ->
  exists msg,
    _validate_inputs (entries_of disk_size head requests) =
    raise (ValueError msg).
Proof.
  unfold invalid. intros H.
  destruct requests as [| r rs]; [eexists; reflexivity |].
  rewrite validate_entries_of.
  destruct (disk_size <=? 0) eqn:Ed; [eexists; reflexivity |].
  apply Z.leb_gt in Ed.
  destruct H as [H | [H | H]]; [discriminate | lia |].
  assert (Hc : negb ((0 <=? head) && (head <? disk_size))
               || existsb (fun r0 => (r0 <? 0) || (r0 >=? disk_size)) (r :: rs)
               = true).
  { apply orb_true_iff. destruct H as [H | H].
    - left. apply head_outside. exact H.
    - right. apply existsb_outside. exact H. }
  rewrite Hc. eexists. reflexivity.
Qed.

Lemma validate_accepts (disk_size head : Z) (requests : list Z) :
  ~ invalid disk_size head requests ->
  _validate_inputs (entries_of disk_size head requests) =
  ret (disk_size, head, requests).
Proof.
  unfold invalid. intros H.
  destruct requests as [| r rs]; [exfalso; apply H; left; reflexivity |].
  rewrite validate_entries_of.
  destruct (disk_size <=? 0) eqn:Ed.
  { exfalso. apply H. right. left. apply Z.leb_le. exact Ed. }
  destruct (negb ((0 <=? head) && (head <? disk_size))) eqn:Eh.
  { exfalso. apply H. right. right. left. apply head_outside. exact Eh. }
  destruct (existsb (fun r0 => (r0 <? 0) || (r0 >=? disk_size)) (r :: rs)) eqn:Er.
  { exfalso. apply H. right. right. right. apply existsb_outside. exact Er. }
  reflexivity.
Qed.

Lemma invalid_dec (disk_size head : Z) (requests : list Z) :
  invalid disk_size head requests \/ ~ invalid disk_size head requests.
Proof.
  destruct (_validate_inputs (entries_of disk_size head requests))
    as [e | v] eqn:E.
  - left. destruct requests as [| r rs]; [left; reflexivity |].
    rewrite validate_entries_of in E.
    destruct (disk_size <=? 0) eqn:Ed.
    { right. left. apply Z.leb_le. exact Ed. }
    destruct (negb ((0 <=? head) && (head <? disk_size))) eqn:Eh.
    { right. right. left. apply head_outside. exact Eh. }
    destruct (existsb (fun r0 => (r0 <? 0) || (r0 >=? disk_size)) (r :: rs)) eqn:Er.
    { right. right. right. apply existsb_outside. exact Er. }
    discriminate.
  - right. intros H. apply validate_rejects in H. destruct H as [msg H].
    unfold raise in H. congruence.
Qed.

Lemma valid_not_invalid (disk_size head : Z) (requests : list Z) :
  Spec.valid disk_size head requests <-> ~ invalid disk_size head requests.
Proof.
  unfold Spec.valid, invalid. split.
  - intros (Hne & Hd & Hh & Hr) [H | [H | [H | H]]]; try contradiction; try lia.
    apply Exists_exists in H. destruct H as (r & Hin & Hn).
    rewrite Forall_forall in Hr. apply Hn, Hr, Hin.
  - intros H. repeat split.
    + intros ->. apply H. left. reflexivity.
    + destruct (Z.lt_ge_cases 0 disk_size); [assumption |].
      exfalso. apply H. right. left. lia.
    + destruct (Z.lt_ge_cases head 0); [| assumption].
      exfalso. apply H. right. right. left. lia.
    + destruct (Z.lt_ge_cases head disk_size); [assumption |].
      exfalso. apply H. right. right. left. lia.
    + rewrite Forall_forall. intros r Hin.
      destruct (Z.lt_ge_cases r 0) as [Hr | Hr];
        [| destruct (Z.lt_ge_cases r disk_size) as [Hr' | Hr']; [lia |]];
        exfalso; apply H; right; right; right;
        apply Exists_exists; exists r; (split; [exact Hin | lia]).
Qed.

End RunFacts.

(* ------------------------------------------------------------------------- *)
(** ** Positions inside the disk *)

Section ValidRuns.

Lemma Forall_sorted_filter (P : Z -> Prop) (p : Z -> bool) (l : list Z) :
  Forall P l -> Forall P (Py.sorted (filter p l)).
Proof.
  intros H.
  apply (Permutation_Forall (Permutation_sym (sorted_Permutation _))).
  rewrite Forall_forall in H |- *. intros x Hx.
  apply filter_In in Hx. apply H. tauto.
Qed.

Lemma Forall_app_intro (P : Z -> Prop) (l1 l2 : list Z) :
  Forall P l1 -> Forall P l2 -> Forall P (l1 ++ l2).
Proof. intros H1 H2. apply Forall_app. split; assumption. Qed.

Lemma Forall_boundary (P : Z -> Prop) (c : bool) (b : Z) :
  P b -> Forall P (if c then [b] else []).
Proof. intros H. destruct c; repeat constructor. exact H. Qed.

Lemma scan_right_in_range (head disk_size : Z) (requests : list Z) :
  Spec.valid disk_size head requests ->
  Forall (fun c => 0 <= c < disk_size)
    (Spec.scan_right head disk_size requests).
Proof.
  intros (_ & Hd & Hh & Hr). unfold Spec.scan_right, Spec.ascending, Spec.descending.
  repeat apply Forall_app_intro.
  - repeat constructor; lia.
  - apply Forall_sorted_filter, Hr.
  - apply Forall_boundary. lia.
  - apply Forall_rev, Forall_sorted_filter, Hr.
Qed.

Lemma scan_left_in_range (head disk_size : Z) (requests : list Z) :
  Spec.valid disk_size head requests ->
  Forall (fun c => 0 <= c < disk_size) (Spec.scan_left head requests).
Proof.
  intros (_ & Hd & Hh & Hr). unfold Spec.scan_left, Spec.ascending, Spec.descending.
  repeat apply Forall_app_intro.
  - repeat constructor; lia.
  - apply Forall_rev, Forall_sorted_filter, Hr.
  - apply Forall_boundary. lia.
  - apply Forall_sorted_filter, Hr.
Qed.

Lemma cscan_in_range (head disk_size : Z) (requests : list Z) :
  Spec.valid disk_size head requests ->
  Forall (fun c => 0 <= c < disk_size) (Spec.cscan head disk_size requests).
Proof.
  intros (_ & Hd & Hh & Hr). unfold Spec.cscan, Spec.ascending.
  repeat apply Forall_app_intro.
  - repeat constructor; lia.
  - apply Forall_sorted_filter, Hr.
  - apply Forall_boundary. lia.
  - repeat constructor; lia.
  - apply Forall_sorted_filter, Hr.
Qed.

(** With no request the divisions return, the average is [0] and the
    throughput is zero. *)
Lemma metrics_of_nil (sequence : list Z) :
  exists m,
    metrics_of [] sequence = ret m /\
    (avg_seek m == 0)%Q /\ (throughput m == 0)%Q.
Proof.
  unfold metrics_of. rewrite bind_ret.
  pose proof (seek_distance_nonneg sequence) as Ht.
  destruct (Spec.seek_distance sequence >? 0) eqn:E.
  - change (Py.len (@nil Z)) with 0.
    rewrite truediv_returns.
    + rewrite bind_ret. eexists. split; [reflexivity |].
      cbn [avg_seek throughput]. rewrite nearest_double_zero.
      split; reflexivity.
    + lia.
    + lia.
    + assert (0 < 2 ^ 1023) by (apply Z.pow_pos_nonneg; lia). nia.
  - rewrite bind_ret. eexists. split; [reflexivity |]. split; reflexivity.
Qed.

End ValidRuns.

(* ------------------------------------------------------------------------- *)
(** ** Policies and the fields of the object *)

Section PolicyFacts.

Lemma policy_sequence_head (requests : list Z) (head disk_size : Z)
    (sequence : list Z) :
  policy_sequence requests head disk_size sequence ->
  hd_error sequence = Some head.
Proof. intros H. destruct H; reflexivity. Qed.

Lemma finish_fields (s1 s2 : DiskScheduler) (sequence : list Z) :
  requests s1 = requests s2 -> head s1 = head s2 ->
  disk_size s1 = disk_size s2 ->
  finish s1 sequence = finish s2 sequence.
Proof.
  intros Hr Hh Hd. unfold finish, set_total_seek, set_seek_sequence.
  cbn [requests head disk_size seek_sequence total_seek].
  rewrite Hr, Hh, Hd. reflexivity.
Qed.

(** Two schedulers that agree on the constructor arguments give the same
    result, whatever an earlier call left in the other two fields. *)
Lemma run_policy_fields (a direction : string) (s1 s2 : DiskScheduler) :
  requests s1 = requests s2 -> head s1 = head s2 ->
  disk_size s1 = disk_size s2 ->
  run_policy a direction s1 = run_policy a direction s2.
Proof.
  intros Hr Hh Hd. unfold run_policy.
  destruct (String.eqb a "FCFS").
  { rewrite !fcfs_eq, Hr, Hh. apply finish_fields; assumption. }
  destruct (String.eqb a "SSTF").
  { destruct (sstf_eq s1) as (o1 & -> & G1).
    destruct (sstf_eq s2) as (o2 & -> & G2).
    rewrite Hr, Hh in G1. rewrite (greedy_deterministic _ _ _ _ G1 G2), Hh.
    apply finish_fields; assumption. }
  destruct (String.eqb a "SCAN").
  { destruct (string_dec direction "right") as [-> | Hdir].
    - rewrite !scan_right_eq, Hr, Hh, Hd. apply finish_fields; assumption.
    - rewrite !(scan_other_eq _ _ Hdir), Hr, Hh. apply finish_fields; assumption. }
  rewrite !cscan_eq, Hr, Hh, Hd. apply finish_fields; assumption.
Qed.

End PolicyFacts.

(* ------------------------------------------------------------------------- *)
(** ** SCAN and C-SCAN as rearrangements of the requests *)

Section Rearrangement.

Lemma sorted_Permutation_eq (l1 l2 : list Z) :
  Permutation l1 l2 -> Py.sorted l1 = Py.sorted l2.
Proof.
  intros HP. apply ascending_unique; try apply sorted_StronglySorted.
  apply perm_trans with l1; [apply sorted_Permutation |].
  apply perm_trans with l2; [exact HP |].
  apply Permutation_sym, sorted_Permutation.
Qed.

Lemma nonempty_Permutation (l1 l2 : list Z) :
  Permutation l1 l2 -> Spec.nonempty l1 = Spec.nonempty l2.
Proof.
  intros HP. destruct l1, l2; try reflexivity.
  - apply Permutation_nil in HP. discriminate.
  - apply Permutation_sym, Permutation_nil in HP. discriminate.
Qed.

Lemma maximum_Permutation (l1 l2 : list Z) :
  Permutation l1 l2 -> Spec.maximum l1 = Spec.maximum l2.
Proof.
  intros HP. destruct l1 as [| a t].
  - apply Permutation_nil in HP. subst. reflexivity.
  - assert (H1 : a :: t <> []) by discriminate.
    assert (H2 : l2 <> []).
    { intros ->. apply Permutation_sym, Permutation_nil in HP. discriminate. }
    destruct (maximum_spec _ H1) as [I1 B1].
    destruct (maximum_spec _ H2) as [I2 B2].
    rewrite Forall_forall in B1, B2.
    pose proof (B2 _ (Permutation_in _ HP I1)).
    pose proof (B1 _ (Permutation_in _ (Permutation_sym HP) I2)). lia.
Qed.

Lemma minimum_Permutation (l1 l2 : list Z) :
  Permutation l1 l2 -> Spec.minimum l1 = Spec.minimum l2.
Proof.
  intros HP. destruct l1 as [| a t].
  - apply Permutation_nil in HP. subst. reflexivity.
  - assert (H1 : a :: t <> []) by discriminate.
    assert (H2 : l2 <> []).
    { intros ->. apply Permutation_sym, Permutation_nil in HP. discriminate. }
    destruct (minimum_spec _ H1) as [I1 B1].
    destruct (minimum_spec _ H2) as [I2 B2].
    rewrite Forall_forall in B1, B2.
    pose proof (B2 _ (Permutation_in _ HP I1)).
    pose proof (B1 _ (Permutation_in _ (Permutation_sym HP) I2)). lia.
Qed.

Lemma scan_right_Permutation (head disk_size : Z) (r1 r2 : list Z) :
  Permutation r1 r2 ->
  Spec.scan_right head disk_size r1 = Spec.scan_right head disk_size r2.
Proof.
  intros HP. unfold Spec.scan_right, Spec.ascending, Spec.descending.
  pose proof (filter_Permutation (fun r => head <=? r) _ _ HP) as HR.
  pose proof (filter_Permutation (fun r => r <? head) _ _ HP) as HL.
  rewrite (sorted_Permutation_eq _ _ HR), (sorted_Permutation_eq _ _ HL),
    (nonempty_Permutation _ _ HR), (maximum_Permutation _ _ HR).
  reflexivity.
Qed.

Lemma scan_left_Permutation (head : Z) (r1 r2 : list Z) :
  Permutation r1 r2 -> Spec.scan_left head r1 = Spec.scan_left head r2.
Proof.
  intros HP. unfold Spec.scan_left, Spec.ascending, Spec.descending.
  pose proof (filter_Permutation (fun r => r <=? head) _ _ HP) as HL.
  pose proof (filter_Permutation (fun r => head <? r) _ _ HP) as HR.
  rewrite (sorted_Permutation_eq _ _ HR), (sorted_Permutation_eq _ _ HL),
    (nonempty_Permutation _ _ HL), (minimum_Permutation _ _ HL).
  reflexivity.
Qed.

Lemma cscan_Permutation (head disk_size : Z) (r1 r2 : list Z) :
  Permutation r1 r2 ->
  Spec.cscan head disk_size r1 = Spec.cscan head disk_size r2.
Proof.
  intros HP. unfold Spec.cscan, Spec.ascending.
  pose proof (filter_Permutation (fun r => head <=? r) _ _ HP) as HR.
  pose proof (filter_Permutation (fun r => r <? head) _ _ HP) as HL.
  rewrite (sorted_Permutation_eq _ _ HR), (sorted_Permutation_eq _ _ HL),
    (nonempty_Permutation _ _ HR), (maximum_Permutation _ _ HR).
  reflexivity.
Qed.

Lemma metrics_of_Permutation (r1 r2 sequence : list Z) :
  Permutation r1 r2 -> metrics_of r1 sequence = metrics_of r2 sequence.
Proof.
  intros HP. unfold metrics_of, Py.len.
  rewrite (Permutation_length HP).
  destruct r1, r2; try reflexivity.
  - apply Permutation_nil in HP. discriminate.
  - apply Permutation_sym, Permutation_nil in HP. discriminate.
Qed.

(** The two parts a policy cuts the requests into hold every request
    once. *)
Lemma filter_split_Permutation (p q : Z -> bool) (l : list Z) :
  (forall x, q x = negb (p x)) ->
  Permutation (filter p l ++ filter q l) l.
Proof.
  intros Hq. induction l as [| x t IH]; simpl.
  - apply perm_nil.
  - rewrite Hq. destruct (p x); simpl.
    + apply perm_skip. exact IH.
    + apply Permutation_sym, Permutation_cons_app, Permutation_sym. exact IH.
Qed.

Lemma right_left_Permutation (head : Z) (l : list Z) :
  Permutation
    (filter (fun r => head <=? r) l ++ filter (fun r => r <? head) l) l.
Proof.
  apply filter_split_Permutation. intros x.
  rewrite Z.ltb_antisym. reflexivity.
Qed.

Lemma left_right_Permutation (head : Z) (l : list Z) :
  Permutation
    (filter (fun r => r <=? head) l ++ filter (fun r => head <? r) l) l.
Proof.
  apply filter_split_Permutation. intros x.
  rewrite Z.ltb_antisym. reflexivity.
Qed.

Lemma filter_all (p : Z -> bool) (l : list Z) :
  Forall (fun x => p x = true) l -> filter p l = l.
Proof.
  induction 1 as [| x t Hx _ IH]; simpl; [reflexivity |].
  rewrite Hx, IH. reflexivity.
Qed.

Lemma filter_none (p : Z -> bool) (l : list Z) :
  Forall (fun x => p x = false) l -> filter p l = [].
Proof.
  induction 1 as [| x t Hx _ IH]; simpl; [reflexivity |].
  rewrite Hx, IH. reflexivity.
Qed.

Lemma nonempty_In {A : Type} (l : list A) :
  Spec.nonempty l = true <-> exists x, In x l.
Proof.
  destruct l as [| a t]; simpl; split.
  - discriminate.
  - intros (x & []).
  - intros _. exists a. left. reflexivity.
  - reflexivity.
Qed.

End Rearrangement.

(* ------------------------------------------------------------------------- *)
(** ** Distances along monotone runs *)

Section Runs.

Variable R : Z -> Z -> Prop.

Lemma StronglySorted_snoc (l : list Z) (a : Z) :
  StronglySorted R l -> Forall (fun x => R x a) l ->
  StronglySorted R (l ++ [a]).
Proof.
  induction 1 as [| b t Ht IH Hb]; intros Ha; simpl.
  - repeat constructor.
  - inversion Ha as [| ? ? Hba Hta]; subst. constructor.
    + apply IH. exact Hta.
    + apply Forall_app. split; [exact Hb | repeat constructor; exact Hba].
Qed.

Lemma StronglySorted_app (l1 l2 : list Z) :
  StronglySorted R l1 -> StronglySorted R l2 ->
  Forall (fun x => Forall (R x) l2) l1 ->
  StronglySorted R (l1 ++ l2).
Proof.
  induction 1 as [| b t Ht IH Hb]; intros H2 H12; simpl; [exact H2 |].
  inversion H12 as [| ? ? Hb2 Ht2]; subst. constructor.
  - apply IH; assumption.
  - apply Forall_app. split; assumption.
Qed.

End Runs.

Section Distances.

Lemma last_cons_default (b a : Z) (t : list Z) : last (b :: t) a = last t b.
Proof.
  revert b a. induction t as [| c t IH]; intros b a; [reflexivity |].
  change (last (b :: c :: t) a) with (last (c :: t) a).
  rewrite (IH c a), (IH c b). reflexivity.
Qed.

Lemma last_In (l : list Z) (d : Z) : In (last l d) (d :: l).
Proof.
  revert d. induction l as [| a t IH]; intros d.
  - left. reflexivity.
  - rewrite last_cons_default. right. apply IH.
Qed.

Lemma StronglySorted_le_rev (l : list Z) :
  StronglySorted Z.le l -> StronglySorted Z.ge (rev l).
Proof.
  induction 1 as [| a t Ht IH Ha]; simpl; [constructor |].
  apply StronglySorted_snoc; [exact IH |].
  apply Forall_rev. eapply Forall_impl; [| exact Ha]. intros x Hx. simpl in Hx. lia.
Qed.

(** An ascending run costs the distance between its ends. *)
Lemma ascending_run (up rest : list Z) (a : Z) :
  StronglySorted Z.le (a :: up) ->
  Spec.seek_distance (a :: up ++ rest) =
  (last up a - a) + Spec.seek_distance (last up a :: rest).
Proof.
  revert a. induction up as [| b t IH]; intros a Hs.
  - simpl last. cbn [app]. lia.
  - inversion Hs as [| ? ? Ht Hb]; subst.
    inversion Hb as [| ? ? Hab _]; subst.
    rewrite last_cons_default. cbn [app].
    change (Spec.seek_distance (a :: b :: t ++ rest))
      with (Z.abs (b - a) + Spec.seek_distance (b :: t ++ rest)).
    rewrite (IH b Ht).
    pose proof (last_In t b) as Hin. inversion Ht as [| ? ? _ Hbt]; subst.
    rewrite Forall_forall in Hbt.
    assert (b <= last t b) by (destruct Hin as [<- | Hin]; [lia | auto]).
    lia.
Qed.

(** A descending run costs the distance between its ends. *)
Lemma descending_run (dn rest : list Z) (a : Z) :
  StronglySorted Z.ge (a :: dn) ->
  Spec.seek_distance (a :: dn ++ rest) =
  (a - last dn a) + Spec.seek_distance (last dn a :: rest).
Proof.
  revert a. induction dn as [| b t IH]; intros a Hs.
  - simpl last. cbn [app]. lia.
  - inversion Hs as [| ? ? Ht Hb]; subst.
    inversion Hb as [| ? ? Hab _]; subst.
    rewrite last_cons_default. cbn [app].
    change (Spec.seek_distance (a :: b :: t ++ rest))
      with (Z.abs (b - a) + Spec.seek_distance (b :: t ++ rest)).
    rewrite (IH b Ht).
    pose proof (last_In t b) as Hin. inversion Ht as [| ? ? _ Hbt]; subst.
    rewrite Forall_forall in Hbt.
    assert (b >= last t b) by (destruct Hin as [<- | Hin]; [lia | auto]).
    lia.
Qed.

(** A move between two positions of a disk of [m + 1] cylinders costs at
    most [m]. *)
Lemma seek_distance_bound (m a : Z) (l : list Z) :
  Forall (fun c => 0 <= c <= m) (a :: l) ->
  Spec.seek_distance (a :: l) <= Z.of_nat (length l) * m.
Proof.
  revert a. induction l as [| b t IH]; intros a H.
  - simpl. lia.
  - inversion H as [| ? ? Ha Hl]; subst. specialize (IH b Hl).
    inversion Hl as [| ? ? Hb _]; subst.
    change (Spec.seek_distance (a :: b :: t))
      with (Z.abs (b - a) + Spec.seek_distance (b :: t)).
    change (length (b :: t)) with (S (length t)). rewrite Nat2Z.inj_succ. lia.
Qed.

End Distances.

(* ------------------------------------------------------------------------- *)
(** ** Bounds on the total seek distance *)

Section Bounds.

Lemma top_of_run (a : Z) (up : list Z) :
  StronglySorted Z.le (a :: up) -> a <= last up a.
Proof.
  intros Hs. inversion Hs as [| ? ? _ Ha]; subst. rewrite Forall_forall in Ha.
  destruct (last_In up a) as [<- | Hin]; [lia | auto].
Qed.

Lemma bottom_of_run (a : Z) (dn : list Z) :
  StronglySorted Z.ge (a :: dn) -> last dn a <= a.
Proof.
  intros Hs. inversion Hs as [| ? ? _ Ha]; subst. rewrite Forall_forall in Ha.
  destruct (last_In dn a) as [<- | Hin]; [lia |].
  specialize (Ha _ Hin). lia.
Qed.

(** Up from [a], then down through positions not above [a]. *)
Lemma up_down_bound (m a : Z) (up dn : list Z) :
  StronglySorted Z.le (a :: up) -> StronglySorted Z.ge dn ->
  Forall (fun x => x <= a) dn ->
  Forall (fun c => 0 <= c <= m) (a :: up ++ dn) ->
  Spec.seek_distance (a :: up ++ dn) <= 2 * m.
Proof.
  intros Hup Hdn Hlow Hr. rewrite ascending_run by exact Hup.
  pose proof (top_of_run _ _ Hup) as Htop.
  set (top := last up a) in *.
  assert (Htd : StronglySorted Z.ge (top :: dn)).
  { constructor; [exact Hdn |]. eapply Forall_impl; [| exact Hlow].
    intros x Hx. simpl in Hx. lia. }
  rewrite <- (app_nil_r dn), descending_run by exact Htd.
  rewrite Forall_forall in Hr.
  assert (Hin_top : In top (a :: up ++ dn)).
  { destruct (last_In up a) as [E | E]; [left; exact E |].
    right. apply in_or_app. left. exact E. }
  assert (Hin_bot : In (last dn top) (a :: up ++ dn)).
  { destruct (last_In dn top) as [<- | E]; [exact Hin_top |].
    right. apply in_or_app. right. exact E. }
  pose proof (Hr _ Hin_top). pose proof (Hr _ Hin_bot).
  pose proof (Hr a (or_introl eq_refl)).
  pose proof (bottom_of_run _ _ Htd). simpl Spec.seek_distance. lia.
Qed.

(** Down from [a], then up through positions not below [a]. *)
Lemma down_up_bound (m a : Z) (dn up : list Z) :
  StronglySorted Z.ge (a :: dn) -> StronglySorted Z.le up ->
  Forall (fun x => a <= x) up ->
  Forall (fun c => 0 <= c <= m) (a :: dn ++ up) ->
  Spec.seek_distance (a :: dn ++ up) <= 2 * m.
Proof.
  intros Hdn Hup Hhigh Hr. rewrite descending_run by exact Hdn.
  pose proof (bottom_of_run _ _ Hdn) as Hbot.
  set (bot := last dn a) in *.
  assert (Hbu : StronglySorted Z.le (bot :: up)).
  { constructor; [exact Hup |]. eapply Forall_impl; [| exact Hhigh].
    intros x Hx. simpl in Hx. lia. }
  rewrite <- (app_nil_r up), ascending_run by exact Hbu.
  rewrite Forall_forall in Hr.
  assert (Hin_bot : In bot (a :: dn ++ up)).
  { destruct (last_In dn a) as [E | E]; [left; exact E |].
    right. apply in_or_app. left. exact E. }
  assert (Hin_top : In (last up bot) (a :: dn ++ up)).
  { destruct (last_In up bot) as [<- | E]; [exact Hin_bot |].
    right. apply in_or_app. right. exact E. }
  pose proof (Hr _ Hin_top). pose proof (Hr _ Hin_bot).
  pose proof (Hr a (or_introl eq_refl)).
  pose proof (top_of_run _ _ Hbu). simpl Spec.seek_distance. lia.
Qed.

(** Up from [a], back to 0, then up again through positions not above
    [a]. *)
Lemma up_wrap_up_bound (m a : Z) (up low : list Z) :
  StronglySorted Z.le (a :: up) -> StronglySorted Z.le low ->
  Forall (fun x => x <= a) low ->
  Forall (fun c => 0 <= c <= m) (a :: up ++ 0 :: low) ->
  Spec.seek_distance (a :: up ++ 0 :: low) <= 2 * m.
Proof.
  intros Hup Hlow Hla Hr. rewrite ascending_run by exact Hup.
  pose proof (top_of_run _ _ Hup) as Htop.
  set (top := last up a) in *.
  rewrite Forall_forall in Hr.
  assert (Hzl : StronglySorted Z.le (0 :: low)).
  { constructor; [exact Hlow |]. rewrite Forall_forall. intros x Hx.
    apply (Hr x). right. apply in_or_app. right. right. exact Hx. }
  change (Spec.seek_distance (top :: 0 :: low))
    with (Z.abs (0 - top) + Spec.seek_distance (0 :: low)).
  rewrite <- (app_nil_r low), ascending_run by exact Hzl.
  assert (Hin_top : In top (a :: up ++ 0 :: low)).
  { destruct (last_In up a) as [E | E]; [left; exact E |].
    right. apply in_or_app. left. exact E. }
  pose proof (Hr _ Hin_top). pose proof (Hr a (or_introl eq_refl)).
  assert (last low 0 <= a).
  { destruct (last_In low 0) as [<- | E]; [lia |].
    rewrite Forall_forall in Hla. apply Hla. exact E. }
  simpl Spec.seek_distance. lia.
Qed.

Lemma in_range_le (disk_size : Z) (l : list Z) :
  Forall (fun c => 0 <= c < disk_size) l ->
  Forall (fun c => 0 <= c <= disk_size - 1) l.
Proof. apply Forall_impl. intros c Hc. lia. Qed.

Lemma sorted_filter_Forall (P : Z -> Prop) (p : Z -> bool) (l : list Z) :
  (forall x, p x = true -> P x) -> Forall P (Py.sorted (filter p l)).
Proof.
  intros Hp.
  apply (Permutation_Forall (Permutation_sym (sorted_Permutation _))).
  rewrite Forall_forall. intros x Hx. apply filter_In in Hx. apply Hp, Hx.
Qed.

(** The rising part of SCAN to the right and of C-SCAN: the requests at or
    above the head and the boundary visit. *)
Lemma rising_part_sorted (head disk_size : Z) (requests : list Z) (c : bool) :
  Spec.valid disk_size head requests ->
  StronglySorted Z.le
    (head :: Py.sorted (filter (fun r => head <=? r) requests)
          ++ (if c then [disk_size - 1] else [])).
Proof.
  intros (_ & Hd & Hh & Hr). constructor.
  - destruct c; [| rewrite app_nil_r; apply sorted_StronglySorted].
    apply StronglySorted_snoc; [apply sorted_StronglySorted |].
    apply Forall_sorted_filter. eapply Forall_impl; [| exact Hr].
    intros x Hx. simpl in Hx. lia.
  - apply Forall_app. split.
    + apply sorted_filter_Forall. intros x Hx. apply Z.leb_le. exact Hx.
    + destruct c; repeat constructor. lia.
Qed.

Lemma scan_right_total (head disk_size : Z) (requests : list Z) :
  Spec.valid disk_size head requests ->
  Spec.seek_distance (Spec.scan_right head disk_size requests)
  <= 2 * (disk_size - 1).
Proof.
  intros Hv. pose proof (in_range_le _ _ (scan_right_in_range _ _ _ Hv)) as Hr.
  unfold Spec.scan_right, Spec.ascending, Spec.descending in *.
  cbn [app] in *. rewrite app_assoc in *.
  apply up_down_bound; [apply rising_part_sorted; exact Hv | | | exact Hr].
  - apply StronglySorted_le_rev, sorted_StronglySorted.
  - apply Forall_rev, sorted_filter_Forall. intros x Hx.
    apply Z.ltb_lt in Hx. lia.
Qed.

Lemma scan_left_total (head disk_size : Z) (requests : list Z) :
  Spec.valid disk_size head requests ->
  Spec.seek_distance (Spec.scan_left head requests) <= 2 * (disk_size - 1).
Proof.
  intros Hv. pose proof (in_range_le _ _ (scan_left_in_range _ _ _ Hv)) as Hr.
  destruct Hv as (_ & Hd & Hh & Hreq).
  unfold Spec.scan_left, Spec.ascending, Spec.descending in *.
  cbn [app] in *. rewrite app_assoc in *.
  apply down_up_bound; [| apply sorted_StronglySorted | | exact Hr].
  - constructor.
    + match goal with
      | |- context [if ?c then _ else _] => destruct c
      end; [| rewrite app_nil_r;
              apply StronglySorted_le_rev, sorted_StronglySorted].
      apply StronglySorted_snoc;
        [apply StronglySorted_le_rev, sorted_StronglySorted |].
      apply Forall_rev, Forall_sorted_filter. eapply Forall_impl; [| exact Hreq].
      intros x Hx. simpl in Hx. lia.
    + apply Forall_app. split.
      * apply Forall_rev, sorted_filter_Forall. intros x Hx.
        apply Z.leb_le in Hx. lia.
      * match goal with
        | |- context [if ?c then _ else _] => destruct c
        end; repeat constructor. lia.
  - apply sorted_filter_Forall. intros x Hx. apply Z.ltb_lt in Hx. lia.
Qed.

Lemma cscan_total (head disk_size : Z) (requests : list Z) :
  Spec.valid disk_size head requests ->
  Spec.seek_distance (Spec.cscan head disk_size requests)
  <= 2 * (disk_size - 1).
Proof.
  intros Hv. pose proof (in_range_le _ _ (cscan_in_range _ _ _ Hv)) as Hr.
  unfold Spec.cscan, Spec.ascending in *.
  cbn [app] in *. rewrite app_assoc in *.
  apply up_wrap_up_bound;
    [apply rising_part_sorted; exact Hv | apply sorted_StronglySorted | | exact Hr].
  apply sorted_filter_Forall. intros x Hx. apply Z.ltb_lt in Hx. lia.
Qed.

End Bounds.

(* ------------------------------------------------------------------------- *)
(** ** Every policy on a valid input *)

Section AllPolicies.

Lemma policy_sequence_in_range (requests : list Z) (head disk_size : Z)
    (sequence : list Z) :
  Spec.valid disk_size head requests ->
  policy_sequence requests head disk_size sequence ->
  Forall (fun c => 0 <= c < disk_size) sequence.
Proof.
  intros Hv Hs. destruct Hs as [| out Hg | | |].
  - destruct Hv as (_ & _ & Hh & Hr). constructor; assumption.
  - destruct Hv as (_ & _ & Hh & Hr). constructor; [exact Hh |].
    apply (Permutation_Forall
             (Permutation_sym (greedy_Permutation _ _ _ Hg))). exact Hr.
  - apply scan_right_in_range. exact Hv.
  - apply scan_left_in_range. exact Hv.
  - apply cscan_in_range. exact Hv.
Qed.

Lemma policy_sequence_nonempty (requests : list Z) (head disk_size : Z)
    (sequence : list Z) :
  policy_sequence requests head disk_size sequence ->
  exists rest, sequence = head :: rest.
Proof. intros Hs. destruct Hs; eexists; reflexivity. Qed.

Lemma greedy_nearest_first (cur : Z) (remaining out : list Z) :
  Spec.greedy cur remaining out -> nearest_first cur out.
Proof.
  induction 1 as [| cur before x after out Hb Ha Hg IH]; simpl; [exact I |].
  split; [| exact IH].
  apply (Permutation_Forall (Permutation_sym (greedy_Permutation _ _ _ Hg))).
  apply Forall_app. split; [| exact Ha].
  eapply Forall_impl; [| exact Hb]. intros y Hy. simpl in Hy. lia.
Qed.

Lemma filter_split_length (p q : Z -> bool) (l : list Z) :
  (forall x, q x = negb (p x)) ->
  (length (Py.sorted (filter p l)) + length (Py.sorted (filter q l)))%nat
  = length l.
Proof.
  intros Hq.
  rewrite !(Permutation_length (sorted_Permutation _)), <- length_app.
  apply Permutation_length, filter_split_Permutation. exact Hq.
Qed.

Lemma boundary_length (c : bool) (b : Z) :
  (length (if c then [b] else []) <= 1)%nat.
Proof. destruct c; simpl; lia. Qed.

(** A policy makes at most two moves more than there are requests. *)
Lemma policy_sequence_length (requests : list Z) (head disk_size : Z)
    (sequence : list Z) :
  policy_sequence requests head disk_size sequence ->
  (length sequence <= length requests + 3)%nat.
Proof.
  intros Hs. destruct Hs as [| out Hg | | |].
  - simpl. lia.
  - simpl. rewrite (Permutation_length (greedy_Permutation _ _ _ Hg)). lia.
  - unfold Spec.scan_right, Spec.ascending, Spec.descending.
    rewrite !length_app, length_rev.
    pose proof (filter_split_length (fun r => head <=? r) (fun r => r <? head)
                  requests
                  ltac:(intros x; cbv beta; rewrite Z.ltb_antisym; reflexivity))
      as Hl.
    match goal with
    | |- context [if ?c then [?b] else []] => pose proof (boundary_length c b)
    end.
    simpl length in *. lia.
  - unfold Spec.scan_left, Spec.ascending, Spec.descending.
    rewrite !length_app, length_rev.
    pose proof (filter_split_length (fun r => r <=? head) (fun r => head <? r)
                  requests
                  ltac:(intros x; cbv beta; rewrite Z.ltb_antisym; reflexivity))
      as Hl.
    match goal with
    | |- context [if ?c then [?b] else []] => pose proof (boundary_length c b)
    end.
    simpl length in *. lia.
  - unfold Spec.cscan, Spec.ascending.
    rewrite !length_app.
    pose proof (filter_split_length (fun r => head <=? r) (fun r => r <? head)
                  requests
                  ltac:(intros x; cbv beta; rewrite Z.ltb_antisym; reflexivity))
      as Hl.
    match goal with
    | |- context [if ?c then [?b] else []] => pose proof (boundary_length c b)
    end.
    simpl length in *. lia.
Qed.

(** On a valid input of safe size the divisions return for every shape. *)
Lemma policy_metrics_return (requests : list Z) (head disk_size : Z)
    (sequence : list Z) :
  Spec.valid disk_size head requests -> double_safe disk_size requests ->
  policy_sequence requests head disk_size sequence ->
  exists m, metrics_of requests sequence = ret m.
Proof.
  intros Hv [Hd Hn] Hs.
  pose proof (policy_sequence_in_range _ _ _ _ Hv Hs) as Hin.
  pose proof (policy_sequence_length _ _ _ _ Hs) as Hlen.
  destruct (policy_sequence_nonempty _ _ _ _ Hs) as (rest & ->).
  pose proof (seek_distance_bound (disk_size - 1) head rest
                (in_range_le _ _ Hin)) as Hb.
  destruct Hv as (Hne & Hpos & _ & _).
  assert (Hn1 : 1 <= Py.len requests).
  { destruct requests as [| r rs]; [congruence |]. pose proof (len_pos r rs). lia. }
  assert (H63 : 2 ^ 63 - 1 < 2 ^ 1023) by (vm_compute; reflexivity).
  assert (H1000 : 4 * 2 ^ 1000 <= 2 ^ 1023) by (vm_compute; discriminate).
  set (B := 2 ^ 1023) in *. set (D := 2 ^ 1000) in *.
  unfold Py.len in *. simpl length in Hlen.
  apply metrics_of_returns; [left | unfold Py.len; lia].
  unfold Py.len. nia.
Qed.

(** The simulation on a valid input: one consistent entry per policy
    asked for, or the [OverflowError] of a division. *)
Lemma run_simulation_cases (disk_size head : Z) (requests : list Z)
    (algo direction : string) :
  Spec.valid disk_size head requests ->
  (exists results,
     run_simulation (entries_of disk_size head requests) algo direction
     = ret results /\
     map fst results = policy_names algo /\
     Forall (fun entry =>
               entry_consistent requests entry /\
               policy_sequence requests head disk_size (fst (snd entry)))
            results) \/
  (run_simulation (entries_of disk_size head requests) algo direction
   = raise OverflowError /\
   exists sequence,
     policy_sequence requests head disk_size sequence /\
     metrics_of requests sequence = raise OverflowError).
Proof.
  intros Hv. apply valid_not_invalid in Hv.
  unfold run_simulation. rewrite (validate_accepts _ _ _ Hv), bind_ret.
  apply run_algorithm_cases.
Qed.

(** On a valid input of safe size the simulation returns its result
    map. *)
Lemma run_simulation_returns (disk_size head : Z) (requests : list Z)
    (algo direction : string) :
  Spec.valid disk_size head requests -> double_safe disk_size requests ->
  exists results,
    run_simulation (entries_of disk_size head requests) algo direction
    = ret results /\
    map fst results = policy_names algo /\
    Forall (fun entry =>
              entry_consistent requests entry /\
              policy_sequence requests head disk_size (fst (snd entry)))
           results.
Proof.
  intros Hv Hs.
  destruct (run_simulation_cases _ _ _ algo direction Hv)
    as [H | (_ & sequence & Hp & Ho)]; [exact H |].
  destruct (policy_metrics_return _ _ _ _ Hv Hs Hp) as (m & Hm).
  rewrite Hm in Ho. discriminate.
Qed.

End AllPolicies.

(* ------------------------------------------------------------------------- *)
(** ** Boundary visits *)

Section BoundaryFacts.

Lemma filter_below_all (head : Z) (requests : list Z) :
  Forall (fun r => r < head) requests ->
  filter (fun r => r <? head) requests = requests /\
  filter (fun r => head <=? r) requests = [].
Proof.
  intros H. split; [apply filter_all | apply filter_none];
    (eapply Forall_impl; [| exact H]); intros x Hx; simpl in Hx.
  - apply Z.ltb_lt. exact Hx.
  - apply Z.leb_gt. exact Hx.
Qed.

Lemma filter_above_all (head : Z) (requests : list Z) :
  Forall (fun r => head < r) requests ->
  filter (fun r => head <? r) requests = requests /\
  filter (fun r => r <=? head) requests = [].
Proof.
  intros H. split; [apply filter_all | apply filter_none];
    (eapply Forall_impl; [| exact H]); intros x Hx; simpl in Hx.
  - apply Z.ltb_lt. exact Hx.
  - apply Z.leb_gt. exact Hx.
Qed.

Lemma In_sorted_filter (p : Z -> bool) (l : list Z) (x : Z) :
  In x (Py.sorted (filter p l)) <-> In x l /\ p x = true.
Proof.
  rewrite <- filter_In. split; apply Permutation_in.
  - apply sorted_Permutation.
  - apply Permutation_sym, sorted_Permutation.
Qed.

(** SCAN to the right passes [disk_size - 1] after the head exactly when
    some request is at or above the head. *)
Lemma scan_right_reaches_top (head disk_size : Z) (requests : list Z) :
  Spec.valid disk_size head requests ->
  In (disk_size - 1) (tl (Spec.scan_right head disk_size requests)) <->
  exists r, In r requests /\ head <= r.
Proof.
  intros (_ & Hd & Hh & Hr).
  unfold Spec.scan_right, Spec.ascending, Spec.descending. cbn [app tl].
  set (R := filter (fun r => head <=? r) requests).
  set (L := filter (fun r => r <? head) requests).
  split.
  - intros Hin. apply in_app_or in Hin. destruct Hin as [Hin | Hin].
    { apply In_sorted_filter in Hin. destruct Hin as [Hin Hp].
      exists (disk_size - 1). split; [exact Hin | apply Z.leb_le; exact Hp]. }
    apply in_app_or in Hin. destruct Hin as [Hin | Hin].
    + destruct (Spec.nonempty R) eqn:Hne; [| destruct Hin].
      apply nonempty_In in Hne. destruct Hne as (x & Hx).
      apply filter_In in Hx. exists x. split; [tauto |].
      apply Z.leb_le. tauto.
    + apply in_rev, In_sorted_filter in Hin. destruct Hin as [_ Hp].
      apply Z.ltb_lt in Hp. lia.
  - intros (r & Hin & Hle).
    assert (HinR : In r R).
    { apply filter_In. split; [exact Hin | apply Z.leb_le; exact Hle]. }
    assert (Hne : Spec.nonempty R = true) by (apply nonempty_In; eauto).
    rewrite Hne. cbn [andb].
    destruct (Spec.maximum R =? disk_size - 1) eqn:Em.
    + apply Z.eqb_eq in Em. apply in_or_app. left.
      apply (Permutation_in _ (Permutation_sym (sorted_Permutation R))).
      rewrite <- Em. apply maximum_spec. intros E. rewrite E in HinR.
      destruct HinR.
    + apply in_or_app. right. apply in_or_app. left. left. reflexivity.
Qed.

(** SCAN to the left passes 0 after the head exactly when some request is
    at or below the head. *)
Lemma scan_left_reaches_bottom (head disk_size : Z) (requests : list Z) :
  Spec.valid disk_size head requests ->
  In 0 (tl (Spec.scan_left head requests)) <->
  exists r, In r requests /\ r <= head.
Proof.
  intros (_ & Hd & Hh & Hr).
  unfold Spec.scan_left, Spec.ascending, Spec.descending. cbn [app tl].
  set (L := filter (fun r => r <=? head) requests).
  set (R := filter (fun r => head <? r) requests).
  split.
  - intros Hin. apply in_app_or in Hin. destruct Hin as [Hin | Hin].
    { apply in_rev, In_sorted_filter in Hin. destruct Hin as [Hin Hp].
      exists 0. split; [exact Hin | apply Z.leb_le; exact Hp]. }
    apply in_app_or in Hin. destruct Hin as [Hin | Hin].
    + destruct (Spec.nonempty L) eqn:Hne; [| destruct Hin].
      apply nonempty_In in Hne. destruct Hne as (x & Hx).
      apply filter_In in Hx. exists x. split; [tauto |].
      apply Z.leb_le. tauto.
    + apply In_sorted_filter in Hin. destruct Hin as [_ Hp].
      apply Z.ltb_lt in Hp. lia.
  - intros (r & Hin & Hle).
    assert (HinL : In r L).
    { apply filter_In. split; [exact Hin | apply Z.leb_le; exact Hle]. }
    assert (Hne : Spec.nonempty L = true) by (apply nonempty_In; eauto).
    rewrite Hne. cbn [andb].
    destruct (Spec.minimum L =? 0) eqn:Em.
    + apply Z.eqb_eq in Em. apply in_or_app. left. apply -> in_rev.
      apply (Permutation_in _ (Permutation_sym (sorted_Permutation L))).
      rewrite <- Em. apply minimum_spec. intros E. rewrite E in HinL.
      destruct HinL.
    + apply in_or_app. right. apply in_or_app. left. left. reflexivity.
Qed.

End BoundaryFacts.

(* ------------------------------------------------------------------------- *)
(** ** Validation messages and random inputs *)

Section InputFacts.

Lemma comprehension_total {A B : Type} (f : A -> result B) (g : A -> B)
    (l : list A) :
  (forall x, In x l -> f x = ret (g x)) ->
  comprehension f l = ret (map g l).
Proof.
  induction l as [| x t IH]; intros H; simpl; [reflexivity |].
  rewrite (H x (or_introl eq_refl)), bind_ret, IH, bind_ret; [reflexivity |].
  intros y Hy. apply H. right. exact Hy.
Qed.

Lemma randint_returns (tape : nat -> Z -> Z -> Z) (k : nat) (a b : Z) :
  a <= b -> randint tape k a b = ret (tape k a b).
Proof.
  intros H. unfold randint.
  destruct (a >? b) eqn:E; [apply Z.gtb_lt in E; lia | reflexivity].
Qed.

End InputFacts.

(* ------------------------------------------------------------------------- *)
(** ** SSTF when the requests lie on one side of the head *)

Section OneSided.

Lemma StronglySorted_ge_rev (l : list Z) :
  StronglySorted Z.ge l -> StronglySorted Z.le (rev l).
Proof.
  induction 1 as [| a t Ht IH Ha]; simpl; [constructor |].
  apply StronglySorted_snoc; [exact IH |].
  apply Forall_rev. eapply Forall_impl; [| exact Ha]. intros x Hx. simpl in Hx. lia.
Qed.

(** From a position at or below everything that remains, the greedy order
    is ascending. *)
Lemma greedy_above (cur : Z) (remaining out : list Z) :
  Spec.greedy cur remaining out ->
  Forall (fun r => cur <= r) remaining ->
  StronglySorted Z.le out.
Proof.
  induction 1 as [| cur before x after out Hb Ha Hg IH]; intros Hall;
    [constructor |].
  apply Forall_app in Hall. destruct Hall as [Hbef Haft].
  inversion Haft as [| ? ? Hx Haft']; subst.
  assert (Hrest : Forall (fun r => x <= r) (before ++ after)).
  { apply Forall_app. split.
    - rewrite Forall_forall in Hb, Hbef |- *. intros y Hy.
      specialize (Hb _ Hy). specialize (Hbef _ Hy). lia.
    - rewrite Forall_forall in Ha, Haft' |- *. intros y Hy.
      specialize (Ha _ Hy). specialize (Haft' _ Hy). lia. }
  constructor; [apply IH; exact Hrest |].
  apply (Permutation_Forall (Permutation_sym (greedy_Permutation _ _ _ Hg))).
  exact Hrest.
Qed.

(** From a position at or above everything that remains, the greedy order
    is descending. *)
Lemma greedy_below (cur : Z) (remaining out : list Z) :
  Spec.greedy cur remaining out ->
  Forall (fun r => r <= cur) remaining ->
  StronglySorted Z.ge out.
Proof.
  induction 1 as [| cur before x after out Hb Ha Hg IH]; intros Hall;
    [constructor |].
  apply Forall_app in Hall. destruct Hall as [Hbef Haft].
  inversion Haft as [| ? ? Hx Haft']; subst.
  assert (Hrest : Forall (fun r => r <= x) (before ++ after)).
  { apply Forall_app. split.
    - rewrite Forall_forall in Hb, Hbef |- *. intros y Hy.
      specialize (Hb _ Hy). specialize (Hbef _ Hy). lia.
    - rewrite Forall_forall in Ha, Haft' |- *. intros y Hy.
      specialize (Ha _ Hy). specialize (Haft' _ Hy). lia. }
  constructor; [apply IH; exact Hrest |].
  apply (Permutation_Forall (Permutation_sym (greedy_Permutation _ _ _ Hg))).
  eapply Forall_impl; [| exact Hrest]. intros y Hy. simpl in Hy. lia.
Qed.

End OneSided.

(* ------------------------------------------------------------------------- *)
(** ** The scenario of the specification, and three divisions *)

Example scenario_fcfs :
  fcfs (init scenario 50 200) =
  finish (init scenario 50 200) [50; 98; 183; 37; 122; 14; 124; 65; 67] /\
  Spec.seek_distance [50; 98; 183; 37; 122; 14; 124; 65; 67] = 643.
Proof. split; vm_compute; reflexivity. Qed.

Example scenario_scan_right :
  sequence_after (scan (init scenario 50 200) "right") =
  [50; 65; 67; 98; 122; 124; 183; 199; 37; 14].
Proof. vm_compute. reflexivity. Qed.

Example scenario_scan_left :
  sequence_after (scan (init scenario 50 200) "left") =
  [50; 37; 14; 0; 65; 67; 98; 122; 124; 183].
Proof. vm_compute. reflexivity. Qed.

Example scenario_cscan :
  sequence_after (cscan (init scenario 50 200)) =
  [50; 65; 67; 98; 122; 124; 183; 199; 0; 14; 37].
Proof. vm_compute. reflexivity. Qed.

Example scenario_sstf :
  sequence_after (sstf (init scenario 50 200)) =
  [50; 37; 14; 65; 67; 98; 122; 124; 183].
Proof. vm_compute. reflexivity. Qed.

(** A tie: 4 and 6 are both at distance 1 from 5; the first in the list
    is served first. *)
Example sstf_tie :
  sequence_after (sstf (init [6; 4] 5 10)) = [5; 6; 4] /\
  sequence_after (sstf (init [4; 6] 5 10)) = [5; 4; 6].
Proof. split; vm_compute; reflexivity. Qed.

(** [643 / 8] is exact, [(2 ** 53 + 1) / 1] is rounded to [2 ** 53], and
    [10 ** 400 / 1] is no double. *)
Example truediv_exact : Py.truediv 643 8 = ret (Qmake 5655887813279744 70368744177664).
Proof. vm_compute. reflexivity. Qed.

Example truediv_rounds :
  Py.truediv 9007199254740993 1 = ret (inject_Z 9007199254740992).
Proof. vm_compute. reflexivity. Qed.

Example truediv_overflows : Py.truediv (10 ^ 400) 1 = raise OverflowError.
Proof. vm_compute. reflexivity. Qed.

(** An overflowing division leaves the sequence and the total in the
    object. *)
Example overflow_keeps_state :
  fcfs (init [10 ^ 400] 0 (10 ^ 400 + 1)) =
  (mkDiskScheduler [10 ^ 400] 0 (10 ^ 400 + 1) [0; 10 ^ 400] (10 ^ 400),
   raise OverflowError).
Proof. vm_compute. reflexivity. Qed.

(** Validity and safe size of a concrete input, by evaluation. *)
Ltac valid_input :=
  unfold Spec.valid; cbn [init disk_size head requests scenario];
  split; [discriminate |]; split; [lia |]; split; [lia |];
  repeat constructor; lia.

Ltac safe_input :=
  unfold double_safe; cbn [init disk_size head requests scenario];
  split; vm_compute; discriminate.

(* ------------------------------------------------------------------------- *)
(** ** The claims *)

(** C1, as stated, fails: with [disk_size = 10], [head = 5] and the single
    request [5], FCFS reports total seek distance 0 and throughput 0,
    which is neither [1 / (0 + 1)] nor [len(requests) = 1]. *)
Lemma C1_counterexample :
  Spec.valid 10 5 [5] /\
  exists sequence m,
    run_simulation (entries_of 10 5 [5]) "FCFS" "right"
    = ret [("FCFS"%string, (sequence, m))] /\
    m_total_seek m = 0 /\
    ~ (throughput m == inject_Z (Py.len [5]) / inject_Z (m_total_seek m + 1))%Q /\
    ~ (throughput m == inject_Z (Py.len [5]))%Q.
Proof.
  split.
  - valid_input.
  - exists [5; 5], (mkMetrics 0 0 0). split; [vm_compute; reflexivity |].
    split; [reflexivity |]. split; intros H; vm_compute in H; discriminate.
Qed.

(** C1 (amended): for every valid input and every policy, the run either
    reports results or fails with [OverflowError] in a division; in the
    results the throughput is the true division
    [len(requests) / (total + 1)], that is the double nearest to that
    quotient, when the total seek distance is positive, and 0 when the
    total seek distance is 0; results are reported whenever the disk has at
    most [2 ** 1000] cylinders and there are at most [2 ** 63 - 1]
    requests. *)
Theorem C1_throughput_guarded (disk_size head : Z) (requests : list Z)
    (algo direction : string) :
  Spec.valid disk_size head requests ->
  ((exists results,
      run_simulation (entries_of disk_size head requests) algo direction
      = ret results /\
      map fst results = policy_names algo /\
      Forall (fun entry =>
                let m := snd (snd entry) in
                (0 < m_total_seek m ->
                 throughput m =
                 Py.nearest_double (Py.len requests) (m_total_seek m + 1)) /\
                (m_total_seek m = 0 -> (throughput m == 0)%Q))
             results) \/
   run_simulation (entries_of disk_size head requests) algo direction
   = raise OverflowError) /\
  (double_safe disk_size requests ->
   exists results,
     run_simulation (entries_of disk_size head requests) algo direction
     = ret results).
Proof.
  intros Hv. split.
  - destruct (run_simulation_cases _ _ _ algo direction Hv)
      as [(results & Hr & Hk & Hc) | (Ho & _)]; [left | right; exact Ho].
    exists results. split; [exact Hr |]. split; [exact Hk |].
    eapply Forall_impl; [| exact Hc].
    intros [name [sequence m]] [He _]. unfold entry_consistent in He.
    cbn [fst snd] in He |- *.
    destruct (metrics_of_ret _ _ _ He) as (Ht & _ & Hthr).
    rewrite Hthr, Ht. split; intros H.
    + apply Z.gtb_lt in H. rewrite H. reflexivity.
    + rewrite H. reflexivity.
  - intros Hs.
    destruct (run_simulation_returns _ _ _ algo direction Hv Hs)
      as (results & Hr & _).
    exists results. exact Hr.
Qed.

Lemma C1_throughput_guarded_witness :
  ((exists results,
      run_simulation (entries_of 200 50 scenario) "Compare All" "right"
      = ret results /\
      map fst results = policy_names "Compare All" /\
      Forall (fun entry =>
                let m := snd (snd entry) in
                (0 < m_total_seek m ->
                 throughput m =
                 Py.nearest_double (Py.len scenario) (m_total_seek m + 1)) /\
                (m_total_seek m = 0 -> (throughput m == 0)%Q))
             results) \/
   run_simulation (entries_of 200 50 scenario) "Compare All" "right"
   = raise OverflowError) /\
  (double_safe 200 scenario ->
   exists results,
     run_simulation (entries_of 200 50 scenario) "Compare All" "right"
     = ret results).
Proof.
  apply (C1_throughput_guarded 200 50 scenario "Compare All" "right").
  valid_input.
Defined.

(** C2: SCAN with direction "right" leaves the sequence [head], the
    requests at or above the head ascending, [disk_size - 1] if that part
    is non-empty and its maximum is not [disk_size - 1], then the requests
    below the head descending; with direction "left" it leaves [head], the
    requests at or below the head descending, [0] if that part is non-empty
    and its minimum is not 0, then the requests above the head ascending.
    The sequence is in the object whether the metrics that follow are
    returned or a division overflows; nothing else is raised. *)
Theorem C2_scan_sequence (self : DiskScheduler) :
  (sequence_after (scan self "right") =
     Spec.scan_right (head self) (disk_size self) (requests self) /\
   returns_or_overflows (metrics_after (scan self "right"))) /\
  (sequence_after (scan self "left") =
     Spec.scan_left (head self) (requests self) /\
   returns_or_overflows (metrics_after (scan self "left"))).
Proof.
  split.
  - rewrite scan_right_eq.
    split; [apply sequence_after_finish | apply metrics_of_outcome].
  - rewrite scan_other_eq by discriminate.
    split; [apply sequence_after_finish | apply metrics_of_outcome].
Qed.

(** C3: C-SCAN leaves the sequence [head], the requests at or above the
    head ascending, [disk_size - 1] if that part is non-empty and its
    maximum is not [disk_size - 1], then always [0], then the requests below
    the head ascending; it raises nothing but the [OverflowError] of a
    division. *)
Theorem C3_cscan_sequence (self : DiskScheduler) :
  sequence_after (cscan self) =
    Spec.cscan (head self) (disk_size self) (requests self) /\
  returns_or_overflows (metrics_after (cscan self)).
Proof.
  rewrite cscan_eq.
  split; [apply sequence_after_finish | apply metrics_of_outcome].
Qed.

(** C4: the loop of SSTF ends without an exception and leaves [head]
    followed by the greedy order of the requests (nearest to the last
    position first, the first of several nearest on a tie); what follows
    the head is a permutation of the requests. *)
Theorem C4_sstf_greedy (self : DiskScheduler) :
  exists out,
    sequence_after (sstf self) = head self :: out /\
    Spec.greedy (head self) (requests self) out /\
    Permutation out (requests self) /\
    returns_or_overflows (metrics_after (sstf self)).
Proof.
  destruct (sstf_eq self) as (out & Hs & Hg).
  exists out. rewrite Hs. split; [apply sequence_after_finish |].
  split; [exact Hg |]. split; [exact (greedy_Permutation _ _ _ Hg) |].
  apply metrics_of_outcome.
Qed.

(** C5: FCFS leaves [head] followed by the requests exactly as given, and
    raises nothing but the [OverflowError] of a division. *)
Theorem C5_fcfs_verbatim (self : DiskScheduler) :
  sequence_after (fcfs self) = head self :: requests self /\
  returns_or_overflows (metrics_after (fcfs self)).
Proof.
  rewrite fcfs_eq.
  split; [apply sequence_after_finish | apply metrics_of_outcome].
Qed.

(** C6: the simulation fails with the validation error exactly when the
    request list is empty, or [disk_size <= 0], or the head or some request
    lies outside [0, disk_size); the error is the one [_validate_inputs]
    raises, so no result map is produced.  In every other case the
    simulation returns a result map or fails with the [OverflowError] of a
    division, and it returns whenever the sizes are safe for the
    divisions. *)
Theorem C6_validation (disk_size head : Z) (requests : list Z)
    (algo direction : string) :
  ((exists msg,
      run_simulation (entries_of disk_size head requests) algo direction
      = raise (ValueError msg)) <->
   invalid disk_size head requests) /\
  (invalid disk_size head requests ->
   exists msg,
     _validate_inputs (entries_of disk_size head requests)
     = raise (ValueError msg) /\
     run_simulation (entries_of disk_size head requests) algo direction
     = raise (ValueError msg)) /\
  (~ invalid disk_size head requests ->
   returns_or_overflows
     (run_simulation (entries_of disk_size head requests) algo direction)) /\
  (~ invalid disk_size head requests -> double_safe disk_size requests ->
   exists results,
     run_simulation (entries_of disk_size head requests) algo direction
     = ret results).
Proof.
  assert (Hbad : invalid disk_size head requests ->
                 exists msg,
                   _validate_inputs (entries_of disk_size head requests)
                   = raise (ValueError msg) /\
                   run_simulation (entries_of disk_size head requests)
                     algo direction
                   = raise (ValueError msg)).
  { intros Hi. destruct (validate_rejects _ _ _ Hi) as (msg & Hm).
    exists msg. split; [exact Hm |]. unfold run_simulation. rewrite Hm.
    reflexivity. }
  assert (Hgood : ~ invalid disk_size head requests ->
                  returns_or_overflows
                    (run_simulation (entries_of disk_size head requests)
                       algo direction)).
  { intros Hn. apply valid_not_invalid in Hn.
    destruct (run_simulation_cases _ _ _ algo direction Hn)
      as [(results & Hr & _) | (Ho & _)].
    - left. exists results. exact Hr.
    - right. exact Ho. }
  split; [| split; [exact Hbad | split; [exact Hgood |]]].
  - split.
    + intros (msg & Hm).
      destruct (invalid_dec disk_size head requests) as [Hi | Hn]; [exact Hi |].
      destruct (Hgood Hn) as [(results & Hr) | Ho]; rewrite Hm in *;
        discriminate.
    + intros Hi. destruct (Hbad Hi) as (msg & _ & Hm). exists msg. exact Hm.
  - intros Hn Hs. apply valid_not_invalid in Hn.
    destruct (run_simulation_returns _ _ _ algo direction Hn Hs)
      as (results & Hr & _).
    exists results. exact Hr.
Qed.

(** C7, as stated, fails: with [disk_size = 2 ** 53 + 2], [head = 0] and
    the single request [2 ** 53 + 1], FCFS reports the total
    [2 ** 53 + 1] and the average [2 ** 53], which is not that total
    divided by the one request. *)
Lemma C7_counterexample :
  Spec.valid 9007199254740994 0 [9007199254740993] /\
  exists sequence m,
    run_simulation (entries_of 9007199254740994 0 [9007199254740993])
      "FCFS" "right"
    = ret [("FCFS"%string, (sequence, m))] /\
    m_total_seek m = Spec.seek_distance sequence /\
    ~ (avg_seek m ==
       inject_Z (m_total_seek m) / inject_Z (Py.len [9007199254740993]))%Q.
Proof.
  split.
  - valid_input.
  - eexists _, _. split; [vm_compute; reflexivity |].
    split; [reflexivity |]. intros H. vm_compute in H. discriminate.
Qed.

(** C7 (amended): for every valid input and every policy, the run either
    reports results or fails with [OverflowError] in a division; in the
    results the total is the sum of the distances between consecutive
    positions of the returned sequence, and the average is the true
    division of that total by the number of original requests, that is
    the double nearest to the quotient; results are reported whenever the
    disk has at most [2 ** 1000] cylinders and there are at most
    [2 ** 63 - 1] requests. *)
Theorem C7_total_and_average (disk_size head : Z) (requests : list Z)
    (algo direction : string) :
  Spec.valid disk_size head requests ->
  ((exists results,
      run_simulation (entries_of disk_size head requests) algo direction
      = ret results /\
      map fst results = policy_names algo /\
      Forall (fun entry =>
                let sequence := fst (snd entry) in
                let m := snd (snd entry) in
                m_total_seek m = Spec.seek_distance sequence /\
                avg_seek m =
                Py.nearest_double (m_total_seek m) (Py.len requests))
             results) \/
   run_simulation (entries_of disk_size head requests) algo direction
   = raise OverflowError) /\
  (double_safe disk_size requests ->
   exists results,
     run_simulation (entries_of disk_size head requests) algo direction
     = ret results).
Proof.
  intros Hv. split.
  - destruct (run_simulation_cases _ _ _ algo direction Hv)
      as [(results & Hr & Hk & Hc) | (Ho & _)]; [left | right; exact Ho].
    exists results. split; [exact Hr |]. split; [exact Hk |].
    eapply Forall_impl; [| exact Hc].
    intros [name [sequence m]] [He _]. unfold entry_consistent in He.
    cbn [fst snd] in He |- *.
    destruct (metrics_of_ret _ _ _ He) as (Ht & Havg & _).
    split; [exact Ht |]. rewrite Havg, Ht.
    destruct Hv as (Hne & _). destruct requests; [congruence | reflexivity].
  - intros Hs.
    destruct (run_simulation_returns _ _ _ algo direction Hv Hs)
      as (results & Hr & _).
    exists results. exact Hr.
Qed.

Lemma C7_total_and_average_witness :
  ((exists results,
      run_simulation (entries_of 200 50 scenario) "Compare All" "left"
      = ret results /\
      map fst results = policy_names "Compare All" /\
      Forall (fun entry =>
                let sequence := fst (snd entry) in
                let m := snd (snd entry) in
                m_total_seek m = Spec.seek_distance sequence /\
                avg_seek m =
                Py.nearest_double (m_total_seek m) (Py.len scenario))
             results) \/
   run_simulation (entries_of 200 50 scenario) "Compare All" "left"
   = raise OverflowError) /\
  (double_safe 200 scenario ->
   exists results,
     run_simulation (entries_of 200 50 scenario) "Compare All" "left"
     = ret results).
Proof.
  apply (C7_total_and_average 200 50 scenario "Compare All" "left").
  valid_input.
Defined.

(** C8: on a valid input every position of the sequences of SCAN (any
    direction) and C-SCAN lies in [0, disk_size). *)
Theorem C8_scan_in_range (self : DiskScheduler) (direction : string) :
  Spec.valid (disk_size self) (head self) (requests self) ->
  Forall (fun c => 0 <= c < disk_size self)
    (sequence_after (scan self direction)) /\
  Forall (fun c => 0 <= c < disk_size self) (sequence_after (cscan self)).
Proof.
  intros Hv. split.
  - destruct (string_dec direction "right") as [-> | Hd].
    + rewrite scan_right_eq, sequence_after_finish.
      apply scan_right_in_range. exact Hv.
    + rewrite (scan_other_eq _ _ Hd), sequence_after_finish.
      apply scan_left_in_range. exact Hv.
  - rewrite cscan_eq, sequence_after_finish. apply cscan_in_range. exact Hv.
Qed.

Lemma C8_scan_in_range_witness :
  Forall (fun c => 0 <= c < 200)
    (sequence_after (scan (init scenario 50 200) "left")) /\
  Forall (fun c => 0 <= c < 200) (sequence_after (cscan (init scenario 50 200))).
Proof.
  apply (C8_scan_in_range (init scenario 50 200) "left").
  valid_input.
Defined.

(** C9: a direction other than "right" makes SCAN return what it returns
    for "left": the same object state and the same tuple. *)
Theorem C9_direction_fallback (self : DiskScheduler) (direction : string) :
  direction <> "right"%string ->
  scan self direction = scan self "left".
Proof.
  intros Hd. rewrite (scan_other_eq _ _ Hd).
  rewrite scan_other_eq by discriminate. reflexivity.
Qed.

Lemma C9_direction_fallback_witness :
  scan (init scenario 50 200) "up" = scan (init scenario 50 200) "left".
Proof.
  apply (C9_direction_fallback (init scenario 50 200) "up").
  discriminate.
Defined.

Lemma finish_returns_empty (self : DiskScheduler) (sequence : list Z) :
  requests self = [] -> returns_empty (finish self sequence) sequence.
Proof.
  intros Hr. unfold finish, returns_empty. rewrite Hr.
  destruct (metrics_of_nil sequence) as (m & -> & Ha & Ht).
  eexists _, m. split; [reflexivity |]. split; [reflexivity |].
  split; assumption.
Qed.

(** C10: a scheduler built on an empty request list returns from every
    policy (no exception), with average 0 and throughput 0; the sequence is
    [head] alone for FCFS, SSTF and SCAN, and [head] then the visit to 0
    for C-SCAN. *)
Theorem C10_empty_requests (head disk_size : Z) (direction : string) :
  returns_empty (fcfs (init [] head disk_size)) [head] /\
  returns_empty (sstf (init [] head disk_size)) [head] /\
  returns_empty (scan (init [] head disk_size) direction) [head] /\
  returns_empty (cscan (init [] head disk_size)) [head; 0].
Proof.
  split; [| split; [| split]].
  - rewrite fcfs_eq. apply finish_returns_empty. reflexivity.
  - destruct (sstf_eq (init [] head disk_size)) as (out & -> & Hg).
    cbn [requests init] in Hg. inversion Hg as [| ? before ? ? ? ? ? ? E]; subst.
    + apply finish_returns_empty. reflexivity.
    + destruct before; discriminate.
  - destruct (string_dec direction "right") as [-> | Hd].
    + rewrite scan_right_eq. apply finish_returns_empty. reflexivity.
    + rewrite (scan_other_eq _ _ Hd). apply finish_returns_empty. reflexivity.
  - rewrite cscan_eq. apply finish_returns_empty. reflexivity.
Qed.

(* ------------------------------------------------------------------------- *)
(** ** Further properties of the engine *)

(** X1: every policy method leaves a sequence that starts with the head
    position, for every scheduler and every direction, and raises nothing
    but the [OverflowError] of a division (no index or value error). *)
Theorem X1_sequence_starts_at_head (a direction : string)
    (scheduler : DiskScheduler) :
  hd_error (sequence_after (run_policy a direction scheduler))
  = Some (head scheduler) /\
  returns_or_overflows (metrics_after (run_policy a direction scheduler)).
Proof.
  destruct (run_policy_shape a direction scheduler) as (sequence & -> & Hs).
  split.
  - rewrite sequence_after_finish. exact (policy_sequence_head _ _ _ _ Hs).
  - apply metrics_of_outcome.
Qed.

(** X2: a policy call, whether it returns or raises, leaves [requests],
    [head] and [disk_size] as they were and stores in [total_seek] the sum
    of the distances of the sequence it leaves; any policy called next on
    the same object does exactly what it does on the object before the
    first call. *)
Theorem X2_policies_do_not_interfere (a direction : string)
    (scheduler : DiskScheduler) :
  let scheduler' := fst (run_policy a direction scheduler) in
  requests scheduler' = requests scheduler /\
  head scheduler' = head scheduler /\
  disk_size scheduler' = disk_size scheduler /\
  total_seek scheduler' = Spec.seek_distance (seek_sequence scheduler') /\
  forall b direction',
    run_policy b direction' scheduler' = run_policy b direction' scheduler.
Proof.
  destruct (run_policy_shape a direction scheduler) as (sequence & -> & _).
  cbv zeta. unfold finish. cbn [fst].
  repeat (split; [reflexivity |]).
  intros b direction'. apply run_policy_fields; reflexivity.
Qed.

(** X3: compare-all mode returns a result map exactly when each of the
    four policies run alone returns one, and the map then holds the four
    entries of the single runs in the order FCFS, SSTF, SCAN, C-SCAN. *)
Theorem X3_compare_all_is_four_single_runs (rs : list Z)
    (start size : Z) (direction : string) (results : Results) :
  _run_algorithm "Compare All" rs start size direction = ret results <->
  exists e1 e2 e3 e4,
    results = [("FCFS", e1); ("SSTF", e2); ("SCAN", e3); ("C-SCAN", e4)]%string /\
    _run_algorithm "FCFS" rs start size direction = ret [("FCFS"%string, e1)] /\
    _run_algorithm "SSTF" rs start size direction = ret [("SSTF"%string, e2)] /\
    _run_algorithm "SCAN" rs start size direction = ret [("SCAN"%string, e3)] /\
    _run_algorithm "C-SCAN" rs start size direction = ret [("C-SCAN"%string, e4)].
Proof.
  unfold _run_algorithm.
  cbn [String.eqb Ascii.eqb Bool.eqb andb compare_all].
  destruct (run_policy_shape "FCFS" direction (init rs start size))
    as (s1 & -> & _).
  destruct (run_policy_shape "SSTF" direction (init rs start size))
    as (s2 & -> & _).
  destruct (run_policy_shape "SCAN" direction (init rs start size))
    as (s3 & -> & _).
  destruct (run_policy_shape "C-SCAN" direction (init rs start size))
    as (s4 & -> & _).
  unfold finish. cbn [init requests seek_sequence set_total_seek set_seek_sequence].
  destruct (metrics_of rs s1) as [x1 | m1];
    [split; [discriminate | intros (? & ? & ? & ? & _ & H & _); discriminate] |].
  destruct (metrics_of rs s2) as [x2 | m2];
    [split; [discriminate | intros (? & ? & ? & ? & _ & _ & H & _); discriminate] |].
  destruct (metrics_of rs s3) as [x3 | m3];
    [split; [discriminate
            | intros (? & ? & ? & ? & _ & _ & _ & H & _); discriminate] |].
  destruct (metrics_of rs s4) as [x4 | m4];
    [split; [discriminate
            | intros (? & ? & ? & ? & _ & _ & _ & _ & H); discriminate] |].
  cbn [bind ret dict_set String.eqb Ascii.eqb Bool.eqb andb]. split.
  - intros H. injection H as <-.
    eexists _, _, _, _. repeat split; reflexivity.
  - intros (e1 & e2 & e3 & e4 & -> & H1 & H2 & H3 & H4).
    injection H1 as <-. injection H2 as <-. injection H3 as <-.
    injection H4 as <-. reflexivity.
Qed.

(** X4: an algorithm name that is none of "FCFS", "SSTF", "SCAN" and
    "Compare All" runs C-SCAN: the outcome is that of the two divisions on
    the C-SCAN sequence, and a result is filed under the name given. *)
Theorem X4_unknown_name_runs_cscan (algo : string) (rs : list Z)
    (start size : Z) (direction : string) :
  algo <> "FCFS"%string -> algo <> "SSTF"%string -> algo <> "SCAN"%string ->
  algo <> "Compare All"%string ->
  _run_algorithm algo rs start size direction =
  (m <- metrics_of rs (Spec.cscan start size rs) ;;
   ret [(algo, (Spec.cscan start size rs, m))]).
Proof.
  intros H1 H2 H3 H4. unfold _run_algorithm, run_policy.
  apply String.eqb_neq in H1, H2, H3, H4. rewrite H1, H2, H3, H4.
  rewrite cscan_eq. reflexivity.
Qed.

Lemma X4_unknown_name_runs_cscan_witness :
  _run_algorithm "LOOK" scenario 50 200 "right" =
  (m <- metrics_of scenario (Spec.cscan 50 200 scenario) ;;
   ret [("LOOK"%string, (Spec.cscan 50 200 scenario, m))]).
Proof.
  apply (X4_unknown_name_runs_cscan "LOOK" scenario 50 200 "right");
    discriminate.
Defined.

(** X5: SCAN and C-SCAN do not depend on the order in which the requests
    are given: two request lists with the same elements give the same
    sequence and the same outcome of the metrics computation. *)
Theorem X5_scan_ignores_request_order (r1 r2 : list Z) (start size : Z)
    (direction : string) :
  Permutation r1 r2 ->
  (sequence_after (scan (init r1 start size) direction) =
   sequence_after (scan (init r2 start size) direction) /\
   metrics_after (scan (init r1 start size) direction) =
   metrics_after (scan (init r2 start size) direction)) /\
  (sequence_after (cscan (init r1 start size)) =
   sequence_after (cscan (init r2 start size)) /\
   metrics_after (cscan (init r1 start size)) =
   metrics_after (cscan (init r2 start size))).
Proof.
  intros HP. split.
  - destruct (string_dec direction "right") as [-> | Hd].
    + rewrite !scan_right_eq, !sequence_after_finish, !metrics_after_finish.
      cbn [init requests head disk_size].
      rewrite (scan_right_Permutation _ _ _ _ HP),
        (metrics_of_Permutation _ _ _ HP).
      split; reflexivity.
    + rewrite !(scan_other_eq _ _ Hd), !sequence_after_finish,
        !metrics_after_finish.
      cbn [init requests head disk_size].
      rewrite (scan_left_Permutation _ _ _ HP),
        (metrics_of_Permutation _ _ _ HP).
      split; reflexivity.
  - rewrite !cscan_eq, !sequence_after_finish, !metrics_after_finish.
    cbn [init requests head disk_size].
    rewrite (cscan_Permutation _ _ _ _ HP), (metrics_of_Permutation _ _ _ HP).
    split; reflexivity.
Qed.

Lemma X5_scan_ignores_request_order_witness :
  (sequence_after (scan (init [7; 2; 9] 5 10) "left") =
   sequence_after (scan (init [2; 9; 7] 5 10) "left") /\
   metrics_after (scan (init [7; 2; 9] 5 10) "left") =
   metrics_after (scan (init [2; 9; 7] 5 10) "left")) /\
  (sequence_after (cscan (init [7; 2; 9] 5 10)) =
   sequence_after (cscan (init [2; 9; 7] 5 10)) /\
   metrics_after (cscan (init [7; 2; 9] 5 10)) =
   metrics_after (cscan (init [2; 9; 7] 5 10))).
Proof.
  apply (X5_scan_ignores_request_order [7; 2; 9] [2; 9; 7] 5 10 "left").
  apply perm_trans with [2; 7; 9].
  - apply perm_swap.
  - apply perm_skip, perm_swap.
Defined.

(** X6: SCAN and C-SCAN serve every request exactly once: after the head,
    the sequence is a rearrangement of the requests together with at most
    one boundary visit ([disk_size - 1] to the right, [0] to the left), and
    for C-SCAN together with the visit to [0] as well. *)
Theorem X6_scan_serves_each_request_once (self : DiskScheduler)
    (direction : string) :
  (exists rest edge,
     sequence_after (scan self "right") = head self :: rest /\
     (edge = [] \/ edge = [disk_size self - 1]) /\
     Permutation rest (edge ++ requests self)) /\
  (direction <> "right"%string ->
   exists rest edge,
     sequence_after (scan self direction) = head self :: rest /\
     (edge = [] \/ edge = [0]) /\
     Permutation rest (edge ++ requests self)) /\
  (exists rest edge,
     sequence_after (cscan self) = head self :: rest /\
     (edge = [] \/ edge = [disk_size self - 1]) /\
     Permutation rest (edge ++ 0 :: requests self)).
Proof.
  split; [| split].
  - rewrite scan_right_eq, sequence_after_finish.
    unfold Spec.scan_right, Spec.ascending, Spec.descending.
    match goal with
    | |- context [if ?c then ?x else []] => set (edge := if c then x else [])
    end.
    eexists _, edge. split; [reflexivity |]. split.
    + subst edge. destruct (_ && _); [right | left]; reflexivity.
    + set (R := filter (fun r => head self <=? r) (requests self)).
      set (L := filter (fun r => r <? head self) (requests self)).
      apply perm_trans with (Py.sorted R ++ rev (Py.sorted L) ++ edge).
      * apply Permutation_app_head, Permutation_app_comm.
      * rewrite app_assoc.
        apply perm_trans with (requests self ++ edge);
          [| apply Permutation_app_comm].
        apply Permutation_app_tail.
        apply perm_trans with (R ++ L); [| apply right_left_Permutation].
        apply Permutation_app; [apply sorted_Permutation |].
        apply perm_trans with (Py.sorted L);
          [apply Permutation_sym, Permutation_rev | apply sorted_Permutation].
  - intros Hd. rewrite (scan_other_eq _ _ Hd), sequence_after_finish.
    unfold Spec.scan_left, Spec.ascending, Spec.descending.
    match goal with
    | |- context [if ?c then ?x else []] => set (edge := if c then x else [])
    end.
    eexists _, edge. split; [reflexivity |]. split.
    + subst edge. destruct (_ && _); [right | left]; reflexivity.
    + set (L := filter (fun r => r <=? head self) (requests self)).
      set (R := filter (fun r => head self <? r) (requests self)).
      apply perm_trans with (edge ++ rev (Py.sorted L) ++ Py.sorted R).
      * rewrite !app_assoc. apply Permutation_app_tail, Permutation_app_comm.
      * apply Permutation_app_head.
        apply perm_trans with (L ++ R); [| apply left_right_Permutation].
        apply Permutation_app; [| apply sorted_Permutation].
        apply perm_trans with (Py.sorted L);
          [apply Permutation_sym, Permutation_rev | apply sorted_Permutation].
  - rewrite cscan_eq, sequence_after_finish.
    unfold Spec.cscan, Spec.ascending.
    match goal with
    | |- context [if ?c then ?x else []] => set (edge := if c then x else [])
    end.
    eexists _, edge. split; [reflexivity |]. split.
    + subst edge. destruct (_ && _); [right | left]; reflexivity.
    + set (R := filter (fun r => head self <=? r) (requests self)).
      set (L := filter (fun r => r <? head self) (requests self)).
      apply perm_trans with (edge ++ Py.sorted R ++ [0] ++ Py.sorted L).
      * rewrite !app_assoc. do 2 apply Permutation_app_tail.
        apply Permutation_app_comm.
      * apply Permutation_app_head. cbn [app].
        apply Permutation_sym, Permutation_cons_app, Permutation_sym.
        apply perm_trans with (R ++ L); [| apply right_left_Permutation].
        apply Permutation_app; apply sorted_Permutation.
Qed.

(** X7: on a valid input the total seek distance that SCAN (either
    direction) and C-SCAN store in the object is at most
    [2 * (disk_size - 1)], however many requests there are, and so is the
    total of the tuple when the call returns one. *)
Theorem X7_scan_total_at_most_two_sweeps (self : DiskScheduler)
    (direction : string) :
  Spec.valid (disk_size self) (head self) (requests self) ->
  (total_seek (fst (scan self direction)) <= 2 * (disk_size self - 1) /\
   forall m, metrics_after (scan self direction) = ret m ->
             m_total_seek m <= 2 * (disk_size self - 1)) /\
  (total_seek (fst (cscan self)) <= 2 * (disk_size self - 1) /\
   forall m, metrics_after (cscan self) = ret m ->
             m_total_seek m <= 2 * (disk_size self - 1)).
Proof.
  intros Hv. split.
  - destruct (string_dec direction "right") as [-> | Hd].
    + rewrite scan_right_eq, metrics_after_finish. unfold finish. cbn [fst].
      pose proof (scan_right_total _ _ _ Hv) as Hb.
      split; [exact Hb |]. intros m Hm.
      destruct (metrics_of_ret _ _ _ Hm) as (-> & _). exact Hb.
    + rewrite (scan_other_eq _ _ Hd), metrics_after_finish.
      unfold finish. cbn [fst].
      pose proof (scan_left_total _ _ _ Hv) as Hb.
      split; [exact Hb |]. intros m Hm.
      destruct (metrics_of_ret _ _ _ Hm) as (-> & _). exact Hb.
  - rewrite cscan_eq, metrics_after_finish. unfold finish. cbn [fst].
    pose proof (cscan_total _ _ _ Hv) as Hb.
    split; [exact Hb |]. intros m Hm.
    destruct (metrics_of_ret _ _ _ Hm) as (-> & _). exact Hb.
Qed.

Lemma X7_scan_total_at_most_two_sweeps_witness :
  (total_seek (fst (scan (init scenario 50 200) "right")) <= 2 * (200 - 1) /\
   forall m, metrics_after (scan (init scenario 50 200) "right") = ret m ->
             m_total_seek m <= 2 * (200 - 1)) /\
  (total_seek (fst (cscan (init scenario 50 200))) <= 2 * (200 - 1) /\
   forall m, metrics_after (cscan (init scenario 50 200)) = ret m ->
             m_total_seek m <= 2 * (200 - 1)).
Proof.
  apply (X7_scan_total_at_most_two_sweeps (init scenario 50 200) "right").
  valid_input.
Defined.

(** X8: on a valid input the run reports results or fails with the
    [OverflowError] of a division; in the results every position of every
    policy's sequence, FCFS and SSTF included, lies in [0, disk_size), and
    the total is at most the number of moves of the sequence times
    [disk_size - 1]; results are reported whenever the sizes are safe for
    the divisions. *)
Theorem X8_every_policy_in_range (disk_size head : Z) (requests : list Z)
    (algo direction : string) :
  Spec.valid disk_size head requests ->
  ((exists results,
      run_simulation (entries_of disk_size head requests) algo direction
      = ret results /\
      map fst results = policy_names algo /\
      Forall (fun entry =>
                let sequence := fst (snd entry) in
                let m := snd (snd entry) in
                Forall (fun c => 0 <= c < disk_size) sequence /\
                m_total_seek m <= (Py.len sequence - 1) * (disk_size - 1))
             results) \/
   run_simulation (entries_of disk_size head requests) algo direction
   = raise OverflowError) /\
  (double_safe disk_size requests ->
   exists results,
     run_simulation (entries_of disk_size head requests) algo direction
     = ret results).
Proof.
  intros Hv. split.
  - destruct (run_simulation_cases _ _ _ algo direction Hv)
      as [(results & Hr & Hk & Hc) | (Ho & _)]; [left | right; exact Ho].
    exists results. split; [exact Hr |]. split; [exact Hk |].
    eapply Forall_impl; [| exact Hc].
    intros [name [sequence m]] [He Hp]. unfold entry_consistent in He.
    cbn [fst snd] in He, Hp |- *.
    destruct (metrics_of_ret _ _ _ He) as (-> & _).
    pose proof (policy_sequence_in_range _ _ _ _ Hv Hp) as Hin.
    split; [exact Hin |].
    destruct (policy_sequence_nonempty _ _ _ _ Hp) as (rest & ->).
    rewrite len_cons.
    replace (1 + Py.len rest - 1) with (Z.of_nat (length rest))
      by (unfold Py.len; lia).
    apply seek_distance_bound, in_range_le. exact Hin.
  - intros Hs.
    destruct (run_simulation_returns _ _ _ algo direction Hv Hs)
      as (results & Hr & _).
    exists results. exact Hr.
Qed.

Lemma X8_every_policy_in_range_witness :
  ((exists results,
      run_simulation (entries_of 200 50 scenario) "Compare All" "right"
      = ret results /\
      map fst results = policy_names "Compare All" /\
      Forall (fun entry =>
                let sequence := fst (snd entry) in
                let m := snd (snd entry) in
                Forall (fun c => 0 <= c < 200) sequence /\
                m_total_seek m <= (Py.len sequence - 1) * (200 - 1))
             results) \/
   run_simulation (entries_of 200 50 scenario) "Compare All" "right"
   = raise OverflowError) /\
  (double_safe 200 scenario ->
   exists results,
     run_simulation (entries_of 200 50 scenario) "Compare All" "right"
     = ret results).
Proof.
  apply (X8_every_policy_in_range 200 50 scenario "Compare All" "right").
  valid_input.
Defined.

(** X9: whatever the scheduler holds, a policy call returns its tuple or
    raises [OverflowError], and in a returned tuple the total, the average
    and the throughput are not negative. *)
Theorem X9_metrics_bounds (a direction : string) (scheduler : DiskScheduler) :
  returns_or_overflows (metrics_after (run_policy a direction scheduler)) /\
  forall m,
    metrics_after (run_policy a direction scheduler) = ret m ->
    0 <= m_total_seek m /\ (0 <= avg_seek m)%Q /\ (0 <= throughput m)%Q.
Proof.
  destruct (run_policy_shape a direction scheduler) as (sequence & -> & _).
  rewrite metrics_after_finish. split; [apply metrics_of_outcome |].
  intros m Hm. destruct (metrics_of_ret _ _ _ Hm) as (Ht & Ha & Hthr).
  pose proof (seek_distance_nonneg sequence) as Hnn.
  rewrite Ht, Ha, Hthr. split; [exact Hnn |]. split.
  - destruct (requests scheduler) as [| r rs]; [apply Qle_refl |].
    apply nearest_double_nonneg; [exact Hnn | apply len_pos].
  - destruct (Spec.seek_distance sequence >? 0); [| apply Qle_refl].
    apply nearest_double_nonneg; [apply len_nonneg | lia].
Qed.

(** X10: in the sequence of SSTF every position after the head is at least
    as near to the position before it as every position that comes
    later. *)
Theorem X10_sstf_nearest_first (self : DiskScheduler) :
  exists out,
    sequence_after (sstf self) = head self :: out /\
    nearest_first (head self) out.
Proof.
  destruct (sstf_eq self) as (out & Hs & Hg).
  exists out. split; [rewrite Hs; apply sequence_after_finish |].
  exact (greedy_nearest_first _ _ _ Hg).
Qed.

(** X11: when every request is below the head, SCAN to the right makes no
    boundary visit and serves the requests in descending order, while
    C-SCAN still goes to 0 and then serves them in ascending order. *)
Theorem X11_all_requests_below_head (self : DiskScheduler) :
  Forall (fun r => r < head self) (requests self) ->
  sequence_after (scan self "right") =
    head self :: Spec.descending (requests self) /\
  sequence_after (cscan self) =
    head self :: 0 :: Spec.ascending (requests self).
Proof.
  intros H. destruct (filter_below_all _ _ H) as [HL HR]. split.
  - rewrite scan_right_eq, sequence_after_finish.
    unfold Spec.scan_right. rewrite HL, HR. reflexivity.
  - rewrite cscan_eq, sequence_after_finish.
    unfold Spec.cscan. rewrite HL, HR. reflexivity.
Qed.

Lemma X11_all_requests_below_head_witness :
  sequence_after (scan (init [3; 1; 4] 5 10) "right") =
    5 :: Spec.descending [3; 1; 4] /\
  sequence_after (cscan (init [3; 1; 4] 5 10)) =
    5 :: 0 :: Spec.ascending [3; 1; 4].
Proof.
  apply (X11_all_requests_below_head (init [3; 1; 4] 5 10)).
  cbn [init head requests]. repeat constructor; lia.
Defined.

(** X12: when every request is above the head, SCAN in a direction other
    than "right" makes no visit to 0 and serves the requests in ascending
    order. *)
Theorem X12_all_requests_above_head (self : DiskScheduler)
    (direction : string) :
  direction <> "right"%string ->
  Forall (fun r => head self < r) (requests self) ->
  sequence_after (scan self direction) =
    head self :: Spec.ascending (requests self).
Proof.
  intros Hd H. destruct (filter_above_all _ _ H) as [HR HL].
  rewrite (scan_other_eq _ _ Hd), sequence_after_finish.
  unfold Spec.scan_left. rewrite HL, HR. reflexivity.
Qed.

Lemma X12_all_requests_above_head_witness :
  sequence_after (scan (init [8; 6; 9] 5 10) "left") =
    5 :: Spec.ascending [8; 6; 9].
Proof.
  apply (X12_all_requests_above_head (init [8; 6; 9] 5 10) "left").
  - discriminate.
  - cbn [init head requests]. repeat constructor; lia.
Defined.

(** X13: on a valid input SCAN to the right passes [disk_size - 1] after
    the head exactly when some request is at or above the head, and SCAN
    in any other direction passes 0 after the head exactly when some request
    is at or below the head. *)
Theorem X13_scan_reaches_the_end (self : DiskScheduler) (direction : string) :
  Spec.valid (disk_size self) (head self) (requests self) ->
  direction <> "right"%string ->
  exists up down,
    sequence_after (scan self "right") = head self :: up /\
    sequence_after (scan self direction) = head self :: down /\
    (In (disk_size self - 1) up <->
     exists r, In r (requests self) /\ head self <= r) /\
    (In 0 down <-> exists r, In r (requests self) /\ r <= head self).
Proof.
  intros Hv Hd.
  rewrite scan_right_eq, (scan_other_eq _ _ Hd), !sequence_after_finish.
  exists (tl (Spec.scan_right (head self) (disk_size self) (requests self))),
    (tl (Spec.scan_left (head self) (requests self))).
  split; [reflexivity |]. split; [reflexivity |]. split.
  - apply scan_right_reaches_top. exact Hv.
  - apply (scan_left_reaches_bottom _ (disk_size self)). exact Hv.
Qed.

Lemma X13_scan_reaches_the_end_witness :
  exists up down,
    sequence_after (scan (init scenario 50 200) "right") = 50 :: up /\
    sequence_after (scan (init scenario 50 200) "left") = 50 :: down /\
    (In (200 - 1) up <-> exists r, In r scenario /\ 50 <= r) /\
    (In 0 down <-> exists r, In r scenario /\ r <= 50).
Proof.
  apply (X13_scan_reaches_the_end (init scenario 50 200) "left").
  - valid_input.
  - discriminate.
Defined.

Section MessageFacts.

Lemma ints_nonempty (first : option Z) (others : list (option Z))
    (requests : list Z) :
  ints (first :: others) = ret requests -> requests <> [].
Proof.
  simpl. destruct first as [z |]; [| discriminate].
  destruct (ints others) as [e | zs]; simpl; [discriminate |].
  intros H. injection H as <-. discriminate.
Qed.

Lemma ints_None (tokens : list (option Z)) :
  In None tokens -> exists e, ints tokens = raise e.
Proof.
  induction tokens as [| t rest IH]; intros Hin; [destruct Hin |].
  destruct t as [z |]; [| eexists; reflexivity].
  destruct Hin as [Hin | Hin]; [discriminate |].
  destruct (IH Hin) as (e & He). simpl. rewrite He. eexists. reflexivity.
Qed.

End MessageFacts.

(** X14: the messages of [_validate_inputs].  A blank entry gives "All
    input fields must be filled.", a text that [int] refuses gives "Inputs
    must be integers."; on integer entries a non-positive disk size gives
    "Disk size must be positive." before the range is looked at, and a
    head or request outside [0, disk_size) gives the range message.  The
    message "Request queue cannot be empty." is never given: a request
    entry that is not blank has at least one token. *)
Theorem X14_validation_messages :
  (forall e,
     _validate_inputs e <> raise (ValueError "Request queue cannot be empty.")) /\
  (forall e,
     disk_size_entry e = Blank \/ head_entry e = Blank \/
     requests_entry e = Blank ->
     _validate_inputs e = raise (ValueError "All input fields must be filled.")) /\
  (forall size start first others,
     size = None \/ start = None \/ In None (first :: others) ->
     _validate_inputs (mkEntries (Text size) (Text start) (Text (first, others)))
     = raise (ValueError "Inputs must be integers.")) /\
  (forall size start r rs,
     size <= 0 ->
     _validate_inputs (entries_of size start (r :: rs))
     = raise (ValueError "Disk size must be positive.")) /\
  (forall size start r rs,
     0 < size ->
     ~ (0 <= start < size) \/ Exists (fun x => ~ (0 <= x < size)) (r :: rs) ->
     _validate_inputs (entries_of size start (r :: rs))
     = raise (ValueError
         "Head and requests must be within disk size (0 to disk_size-1).")).
Proof.
  split; [| split; [| split; [| split]]].
  - intros [[| [size |]] [| [start |]] [| [first others]]];
      unfold _validate_inputs;
      cbn [disk_size_entry head_entry requests_entry]; try discriminate.
    destruct (ints (first :: others)) as [e | requests] eqn:E;
      [discriminate |].
    apply ints_nonempty in E. destruct requests as [| r rs]; [congruence |].
    destruct (size <=? 0); [discriminate |].
    destruct (_ || _); discriminate.
  - intros [[| size] [| start] [| [first others]]] H;
      cbn [disk_size_entry head_entry requests_entry] in H;
      unfold _validate_inputs;
      cbn [disk_size_entry head_entry requests_entry];
      try reflexivity.
    destruct H as [H | [H | H]]; discriminate.
  - intros size start first others H. unfold _validate_inputs.
    cbn [disk_size_entry head_entry requests_entry].
    destruct size as [size |]; [| reflexivity].
    destruct start as [start |]; [| reflexivity].
    destruct H as [H | [H | H]]; try discriminate.
    destruct (ints_None _ H) as (e & ->). reflexivity.
  - intros size start r rs Hd. rewrite validate_entries_of.
    apply Z.leb_le in Hd. rewrite Hd. reflexivity.
  - intros size start r rs Hd Hout. rewrite validate_entries_of.
    apply Z.leb_gt in Hd. rewrite Hd.
    assert (Hc : negb ((0 <=? start) && (start <? size))
                 || existsb (fun x => (x <? 0) || (x >=? size)) (r :: rs)
                 = true).
    { apply orb_true_iff. destruct Hout as [H | H].
      - left. apply head_outside. exact H.
      - right. apply existsb_outside. exact H. }
    rewrite Hc. reflexivity.
Qed.

(** X15: when every draw of [randint(a, b)] lies in [a, b] and the disk
    size entry is blank or holds a positive integer, [generate_random]
    returns that disk size (200 for a blank entry), a head and between 5
    and 15 requests in ascending order, and these three values pass the
    checks of [_validate_inputs]. *)
Theorem X15_generate_random_valid (tape : nat -> Z -> Z -> Z)
    (disk_size_input : option Z) :
  (forall k a b, a <= b -> a <= tape k a b <= b) ->
  match disk_size_input with Some z => 0 < z | None => True end ->
  exists head requests,
    let disk_size :=
      match disk_size_input with Some z => z | None => 200 end in
    generate_random tape disk_size_input = ret (disk_size, head, requests) /\
    5 <= Py.len requests <= 15 /\
    StronglySorted Z.le requests /\
    _validate_inputs (entries_of disk_size head requests) =
    ret (disk_size, head, requests).
Proof.
  intros Htape Hpos. unfold generate_random.
  set (d := match disk_size_input with Some z => z | None => 200 end).
  assert (Hd : 0 < d) by (subst d; destruct disk_size_input; lia).
  destruct (d <=? 0) eqn:E; [apply Z.leb_le in E; lia |].
  rewrite !randint_returns, !bind_ret by lia.
  pose proof (Htape 0%nat 0 (d - 1) ltac:(lia)) as Hh.
  pose proof (Htape 1%nat 5 15 ltac:(lia)) as Hc.
  set (h := tape 0%nat 0 (d - 1)) in *.
  set (count := tape 1%nat 5 15) in *.
  rewrite (comprehension_total _ (fun i => tape (2 + i)%nat 0 (d - 1)))
    by (intros i _; apply randint_returns; lia).
  rewrite bind_ret.
  set (drawn := map (fun i => tape (2 + i)%nat 0 (d - 1)) (seq 0 (Z.to_nat count))).
  assert (Hlen : Py.len (Py.sorted drawn) = count).
  { unfold Py.len. rewrite (Permutation_length (sorted_Permutation drawn)).
    subst drawn. rewrite length_map, length_seq. lia. }
  exists h, (Py.sorted drawn). cbv zeta.
  split; [reflexivity |]. split; [lia |].
  split; [apply sorted_StronglySorted |].
  apply validate_accepts, valid_not_invalid. unfold Spec.valid.
  split; [| split; [exact Hd | split; [lia |]]].
  - intros E0. rewrite E0 in Hlen. change (Py.len (@nil Z)) with 0 in Hlen. lia.
  - apply (Permutation_Forall (Permutation_sym (sorted_Permutation drawn))).
    subst drawn. rewrite Forall_forall. intros x Hx.
    apply in_map_iff in Hx. destruct Hx as (i & <- & _).
    pose proof (Htape (2 + i)%nat 0 (d - 1) ltac:(lia)). lia.
Qed.

Lemma X15_generate_random_valid_witness :
  exists head requests,
    let disk_size := 200 in
    generate_random (fun _ a _ => a) None = ret (disk_size, head, requests) /\
    5 <= Py.len requests <= 15 /\
    StronglySorted Z.le requests /\
    _validate_inputs (entries_of disk_size head requests) =
    ret (disk_size, head, requests).
Proof.
  apply (X15_generate_random_valid (fun _ a _ => a) None).
  - intros k a b H. lia.
  - exact I.
Defined.

(** X16: when no request is below the head, SSTF serves the requests in
    ascending order; when no request is above the head, it serves them in
    descending order. *)
Theorem X16_sstf_one_sided (self : DiskScheduler) :
  (Forall (fun r => head self <= r) (requests self) ->
   sequence_after (sstf self) =
   head self :: Spec.ascending (requests self)) /\
  (Forall (fun r => r <= head self) (requests self) ->
   sequence_after (sstf self) =
   head self :: Spec.descending (requests self)).
Proof.
  destruct (sstf_eq self) as (out & Hs & Hg).
  rewrite Hs, sequence_after_finish.
  pose proof (greedy_Permutation _ _ _ Hg) as HP.
  split; intros Hall; f_equal.
  - unfold Spec.ascending. apply ascending_unique.
    + exact (greedy_above _ _ _ Hg Hall).
    + apply sorted_StronglySorted.
    + apply perm_trans with (requests self); [exact HP |].
      apply Permutation_sym, sorted_Permutation.
  - unfold Spec.descending. rewrite <- (rev_involutive out). f_equal.
    apply ascending_unique.
    + apply StronglySorted_ge_rev. exact (greedy_below _ _ _ Hg Hall).
    + apply sorted_StronglySorted.
    + apply perm_trans with out; [apply Permutation_sym, Permutation_rev |].
      apply perm_trans with (requests self); [exact HP |].
      apply Permutation_sym, sorted_Permutation.
Qed.

(** X17: on a valid input with a disk of at most [2 ** 1000] cylinders
    and at most [2 ** 63 - 1] requests, every policy returns its tuple: no
    division overflows. *)
Theorem X17_policies_return_on_safe_sizes (a direction : string)
    (self : DiskScheduler) :
  Spec.valid (disk_size self) (head self) (requests self) ->
  double_safe (disk_size self) (requests self) ->
  exists m, metrics_after (run_policy a direction self) = ret m.
Proof.
  intros Hv Hs.
  destruct (run_policy_shape a direction self) as (sequence & -> & Hp).
  rewrite metrics_after_finish.
  exact (policy_metrics_return _ _ _ _ Hv Hs Hp).
Qed.

Lemma X17_policies_return_on_safe_sizes_witness :
  exists m,
    metrics_after (run_policy "SSTF" "right" (init scenario 50 200)) = ret m.
Proof.
  apply (X17_policies_return_on_safe_sizes "SSTF" "right"
           (init scenario 50 200)).
  - valid_input.
  - safe_input.
Defined.
